(** * Sentence collation in [vocode/streaming/agent/utils.py]

    A shallow embedding of [collate_response_async], [find_last_punctuation]
    and [get_sentence_from_buffer], together with the fragment of Python's
    [str] and [re] behaviour these functions rely on.

    Python strings are modelled as lists of characters whose code points lie
    in 0..255; in that range [\d] is exactly the ten ASCII digits and the
    characters removed by [str.strip()] are the code points
    9-13, 28-32, 133 and 160. *)

From Stdlib Require Import List Bool Arith ZArith Lia Ascii String.
Import ListNotations.

Abbreviation length := Datatypes.length.

(** ** Python strings *)

Module PyStr.

Abbreviation pystr := (list ascii).

Definition str (s : string) : pystr := list_ascii_of_string s.
Arguments str s%_string.

Definition newline : ascii := ascii_of_nat 10.
Definition space : ascii := " "%char.

(** Truth value of a string: [bool(s)]. *)
Definition truthy (s : pystr) : bool :=
  match s with [] => false | _ :: _ => true end.

(** [str.isspace] on one character. *)
Definition isspace (c : ascii) : bool :=
  let n := nat_of_ascii c in
  ((9 <=? n) && (n <=? 13)) || ((28 <=? n) && (n <=? 32))
  || (n =? 133) || (n =? 160).

(** Decimal digits, the class [\d]. *)
Definition isdecimal (c : ascii) : bool :=
  let n := nat_of_ascii c in (48 <=? n) && (n <=? 57).

Fixpoint lstrip (s : pystr) : pystr :=
  match s with
  | [] => []
  | c :: t => if isspace c then lstrip t else s
  end.

Definition rstrip (s : pystr) : pystr := rev (lstrip (rev s)).

(** [s.strip()] *)
Definition strip (s : pystr) : pystr := rstrip (lstrip s).

(** [s.startswith(p)] *)
Fixpoint startswith (s p : pystr) {struct p} : bool :=
  match p, s with
  | [], _ => true
  | _ :: _, [] => false
  | a :: p', b :: s' => Ascii.eqb a b && startswith s' p'
  end.

(** [s.rfind(sub)]: the highest index at which [sub] occurs in [s], or -1.
    [rfind_from s sub i] scans the suffix [s] that starts at index [i]. *)
Fixpoint rfind_from (s sub : pystr) (i : Z) : Z :=
  match s with
  | [] => if startswith [] sub then i else (-1)%Z
  | _ :: t =>
      let later := rfind_from t sub (i + 1) in
      if (0 <=? later)%Z then later
      else if startswith s sub then i else (-1)%Z
  end.

Definition rfind (s sub : pystr) : Z := rfind_from s sub 0.

(** Slice bounds as Python normalises them: a negative bound counts from the
    end, and the result is clamped to [0, len]. *)
Definition slice_index (len k : Z) : nat :=
  let k' := if (k <? 0)%Z then (k + len)%Z else k in
  Z.to_nat (Z.min len (Z.max 0 k')).

(** [s[:k]] and [s[k:]] *)
Definition slice_to (s : pystr) (k : Z) : pystr :=
  firstn (slice_index (Z.of_nat (length s)) k) s.

Definition slice_from (s : pystr) (k : Z) : pystr :=
  skipn (slice_index (Z.of_nat (length s)) k) s.

End PyStr.

Import PyStr.

(** ** The fragment of [re] used by the collator *)

Module Re.

Inductive regex : Type :=
| Empty                      (* the empty pattern *)
| Chr (c : ascii)            (* a literal, possibly escaped, character *)
| AnyChar                    (* [.] : any character except newline *)
| Digit                      (* [\d] *)
| OneOf (cs : list ascii)    (* a character set [[...]] *)
| Bos                        (* [^] : start of the string *)
| Eos                        (* [$] : end, or before a final newline *)
| Cat (r1 r2 : regex)
| Or (r1 r2 : regex)
| Plus (r : regex).

(** A cursor into the subject: the number of characters already passed and
    the characters still ahead. *)
Abbreviation cursor := (nat * pystr)%type.

Definition one_char (ok : ascii -> bool) (p : cursor) : list cursor :=
  match snd p with
  | c :: t => if ok c then [(S (fst p), t)] else []
  | [] => []
  end.

Definition at_end (t : pystr) : bool :=
  match t with
  | [] => true
  | [c] => Ascii.eqb c newline
  | _ => false
  end.

(** One or more repetitions of [step]; an iteration that consumed nothing
    is not repeated. *)
Fixpoint iter_plus (step : cursor -> list cursor) (fuel : nat) (p : cursor)
  : list cursor :=
  match fuel with
  | 0 => []
  | S fuel' =>
      let qs := step p in
      qs ++ flat_map (fun q =>
                if length (snd q) <? length (snd p)
                then iter_plus step fuel' q else []) qs
  end.

(** All cursors at which a match of [r] started at [p] can end. *)
Fixpoint ends (r : regex) (p : cursor) : list cursor :=
  match r with
  | Empty => [p]
  | Chr c => one_char (Ascii.eqb c) p
  | AnyChar => one_char (fun x => negb (Ascii.eqb x newline)) p
  | Digit => one_char isdecimal p
  | OneOf cs => one_char (fun x => existsb (Ascii.eqb x) cs) p
  | Bos => if fst p =? 0 then [p] else []
  | Eos => if at_end (snd p) then [p] else []
  | Cat r1 r2 => flat_map (ends r2) (ends r1 p)
  | Or r1 r2 => ends r1 p ++ ends r2 p
  | Plus r' => iter_plus (ends r') (S (length (snd p))) p
  end.

Definition matches_at (r : regex) (p : cursor) : bool :=
  match ends r p with [] => false | _ :: _ => true end.

(** Truth value of [re.match(r, s)]. *)
Definition re_match (r : regex) (s : pystr) : bool := matches_at r (0, s).

Fixpoint search_from (r : regex) (n : nat) (t : pystr) : bool :=
  matches_at r (n, t)
  || match t with
     | [] => false
     | _ :: t' => search_from r (S n) t'
     end.

(** Truth value of the list [re.findall(r, s)]: it is non-empty exactly when
    [r] matches at some start position of [s]. *)
Definition re_findall (r : regex) (s : pystr) : bool := search_from r 0 s.

(** [re.escape(s)] read as a pattern: the characters of [s], literally. *)
Fixpoint escape (s : pystr) : regex :=
  match s with
  | [] => Empty
  | [c] => Chr c
  | c :: t => Cat (Chr c) (escape t)
  end.

(** The pattern written ["|".join(ps)]; joining nothing gives the empty
    pattern. *)
Fixpoint join_alt (ps : list regex) : regex :=
  match ps with
  | [] => Empty
  | [r] => r
  | r :: rs => Or r (join_alt rs)
  end.

(** Declarative reading of the patterns, used to validate [ends]. *)
Inductive matches : regex -> cursor -> cursor -> Prop :=
| MEmpty p : matches Empty p p
| MChr c n t : matches (Chr c) (n, c :: t) (S n, t)
| MAny c n t : c <> newline -> matches AnyChar (n, c :: t) (S n, t)
| MDigit c n t : isdecimal c = true -> matches Digit (n, c :: t) (S n, t)
| MOneOf cs c n t : In c cs -> matches (OneOf cs) (n, c :: t) (S n, t)
| MBos t : matches Bos (0, t) (0, t)
| MEosEnd n : matches Eos (n, []) (n, [])
| MEosNl n : matches Eos (n, [newline]) (n, [newline])
| MCat r1 r2 p q u : matches r1 p q -> matches r2 q u -> matches (Cat r1 r2) p u
| MOrL r1 r2 p q : matches r1 p q -> matches (Or r1 r2) p q
| MOrR r1 r2 p q : matches r2 p q -> matches (Or r1 r2) p q
| MPlusOne r p q : matches r p q -> matches (Plus r) p q
| MPlusMore r p q u :
    matches r p q -> matches (Plus r) q u -> matches (Plus r) p u.

End Re.

Import Re.

(** ** The collator and the two buffer helpers *)

Module Utils.

(** [SENTENCE_ENDINGS = [".", "!", "?", "\n"]] *)
Definition SENTENCE_ENDINGS : list pystr :=
  [str "."; str "!"; str "?"; [newline]].

(** What the input iterable delivers: [Union[str, FunctionFragment]]. *)
Inductive token : Type :=
| Text (s : pystr)
| FunctionFragment (text : pystr).

(** What the generator yields: a plain string or a [FunctionCall]. *)
Inductive yielded : Type :=
| Utterance (s : pystr)
| FunctionCall (text : pystr).

(** The local variables that survive one loop iteration. *)
Record locals : Type := mkLocals {
  buffer : pystr;
  function_buffer : pystr;
  prev_ends_with_money : bool
}.

Definition initial : locals :=
  {| buffer := []; function_buffer := []; prev_ends_with_money := false |}.

(** ["|".join(map(re.escape, sentence_endings))] *)
Definition sentence_endings_pattern (sentence_endings : list pystr) : regex :=
  join_alt (map escape sentence_endings).

(** [r"\n"] *)
Definition list_item_ending_pattern : regex := Chr newline.

(** [r"^\d+[ .]"] *)
Definition list_item_pattern : regex :=
  Cat Bos (Cat (Plus Digit) (OneOf [space; "."%char])).

(** [r"\$\d+.$"] *)
Definition money_pattern : regex :=
  Cat (Chr "$"%char) (Cat (Plus Digit) (Cat AnyChar Eos)).

Definition possible_list_item (buf : pystr) : bool :=
  re_match list_item_pattern buf.

Definition ends_with_money (buf : pystr) : bool :=
  re_findall money_pattern buf.

(** The body of the loop for a non-empty [str] token: the new locals and
    the values yielded, in order. *)
Definition text_step (pattern : regex) (st : locals) (tok : pystr)
  : locals * list yielded :=
  let flush := prev_ends_with_money st && startswith tok [space] in
  let out1 := if flush then [Utterance (strip (buffer st))] else [] in
  let buf := (if flush then [] else buffer st) ++ tok in
  let pli := possible_list_item buf in
  let ewm := ends_with_money buf in
  if re_findall (if pli then list_item_ending_pattern else pattern) tok
  then
    if negb ewm then
      let to_return := strip buf in
      (mkLocals [] (function_buffer st) ewm,
       out1 ++ (if truthy to_return then [Utterance to_return] else []))
    else (mkLocals buf (function_buffer st) ewm, out1)
  else
    (mkLocals buf (function_buffer st) ewm, out1).

(** One iteration of [async for token in gen].  An empty string is skipped
    by [if not token: continue]; a [FunctionFragment] object is always
    truthy and has its text appended to [function_buffer]. *)
Definition step (pattern : regex) (st : locals) (tok : token)
  : locals * list yielded :=
  match tok with
  | Text s => if truthy s then text_step pattern st s else (st, [])
  | FunctionFragment text =>
      (mkLocals (buffer st) (function_buffer st ++ text)
                (prev_ends_with_money st), [])
  end.

(** The loop: final locals, and the yields of each iteration in turn. *)
Fixpoint loop (pattern : regex) (st : locals) (gen : list token)
  : locals * list (list yielded) :=
  match gen with
  | [] => (st, [])
  | tok :: rest =>
      let (st1, out) := step pattern st tok in
      let (st2, outs) := loop pattern st1 rest in
      (st2, out :: outs)
  end.

(** The code after the loop. *)
Definition finish (get_functions : bool) (st : locals) : list yielded :=
  let to_return := strip (buffer st) in
  (if truthy to_return then [Utterance to_return] else [])
  ++ (if truthy (function_buffer st) && get_functions
      then [FunctionCall (function_buffer st)] else []).

(** The yields of every loop iteration, then those of the code after the
    loop. *)
Definition collate_trace (gen : list token) (sentence_endings : list pystr)
    (get_functions : bool) : list (list yielded) * list yielded :=
  let (st, outs) := loop (sentence_endings_pattern sentence_endings)
                         initial gen in
  (outs, finish get_functions st).

(** Everything [collate_response_async] yields, in order. *)
Definition collate_response_async (gen : list token)
    (sentence_endings : list pystr) (get_functions : bool) : list yielded :=
  let (outs, last) := collate_trace gen sentence_endings get_functions in
  List.concat outs ++ last.

(** Maximum of a non-empty list of integers, [max(indices)]. *)
Definition zmax (x : Z) (xs : list Z) : Z := fold_left Z.max xs x.

Definition find_last_punctuation (buf : pystr) : option Z :=
  let indices := map (rfind buf) SENTENCE_ENDINGS in
  match indices with
  | [] => None
  | x :: xs => Some (zmax x xs)
  end.

(** Truth value of an [Optional[int]]: [None] and [0] are false. *)
Definition truthy_opt_int (o : option Z) : bool :=
  match o with
  | None => false
  | Some z => negb (z =? 0)%Z
  end.

Definition get_sentence_from_buffer (buf : pystr)
  : option pystr * option pystr :=
  let last_punctuation := find_last_punctuation buf in
  if truthy_opt_int last_punctuation then
    match last_punctuation with
    | Some lp => (Some (slice_to buf (lp + 1)), Some (slice_from buf (lp + 1)))
    | None => (None, None)
    end
  else (None, None).

(** Projections used to state the properties. *)
Definition text_of (t : token) : pystr :=
  match t with Text s => s | FunctionFragment _ => [] end.

Definition fragment_of (t : token) : pystr :=
  match t with Text _ => [] | FunctionFragment x => x end.

(** All the text, and all the fragment text, of an input, in arrival
    order. *)
Definition texts (gen : list token) : pystr := flat_map text_of gen.

Definition fragments (gen : list token) : pystr := flat_map fragment_of gen.

Definition utterances (out : list yielded) : list pystr :=
  flat_map (fun y => match y with Utterance s => [s] | FunctionCall _ => [] end)
           out.

Definition is_utterance (y : yielded) : Prop :=
  match y with Utterance _ => True | FunctionCall _ => False end.

Definition is_terminator (c : ascii) : Prop := In [c] SENTENCE_ENDINGS.

(** The utterances obtained from consecutive segments of the text: each
    segment stripped, the ones that strip to nothing left out. *)
Definition emitted (segs : list pystr) : list yielded :=
  map Utterance (filter truthy (map strip segs)).

(** The money flag is only ever set for a buffer that is still there. *)
Definition flag_sound (st : locals) : Prop :=
  prev_ends_with_money st = true -> ends_with_money (buffer st) = true.

(** What one iteration may cut off the text for a given token: at most two
    segments, and none for a fragment. *)
Definition cut_for (tok : token) (segs : list pystr) : Prop :=
  length segs <= 2 /\
  match tok with Text _ => True | FunctionFragment _ => segs = [] end.

(** The buffers [money_pattern] finds a match in: somewhere a dollar sign,
    one or more digits and one more character that is not a newline, and
    after that nothing, or only one final newline. *)
Definition money_shape (buf : pystr) : Prop :=
  exists pre ds c tl,
    buf = pre ++ "$"%char :: ds ++ c :: tl /\
    ds <> [] /\ forallb isdecimal ds = true /\
    c <> newline /\ (tl = [] \/ tl = [newline]).

(** The shape in the words of the description: the buffer ends with a
    dollar sign, one or more digits, a period, and exactly one more
    character. *)
Definition described_money_shape (buf : pystr) : Prop :=
  exists pre ds c,
    buf = pre ++ "$"%char :: ds ++ ["."%char; c] /\
    ds <> [] /\ forallb isdecimal ds = true.

(** The buffers that end with a dollar sign, one or more digits and a
    period, apart from at most one final newline. *)
Definition money_period_shape (buf : pystr) : Prop :=
  exists pre ds tl,
    buf = pre ++ "$"%char :: ds ++ "."%char :: tl /\
    ds <> [] /\ forallb isdecimal ds = true /\
    (tl = [] \/ tl = [newline]).

End Utils.

Import Utils.

(** ** Vocabulary for further properties of the collator *)

Module Units.

(** The strings of the [Text] units of an input, one per unit. *)
Definition text_units (gen : list token) : list pystr :=
  flat_map (fun t => match t with Text s => [s] | FunctionFragment _ => [] end)
           gen.

Definition is_text (t : token) : bool :=
  match t with Text _ => true | FunctionFragment _ => false end.

(** A unit that carries some text. *)
Definition nonempty_unit (t : token) : bool :=
  match t with Text s => truthy s | FunctionFragment x => truthy x end.

(** What the last [if] of the collator yields. *)
Definition function_call (gen : list token) (get_functions : bool)
  : list yielded :=
  if truthy (fragments gen) && get_functions
  then [FunctionCall (fragments gen)] else [].

(** [e in tok] for strings. *)
Definition occurs_in (e tok : pystr) : Prop :=
  exists pre suf, tok = pre ++ e ++ suf.

(** The buffers [list_item_pattern] matches: one or more digits at the very
    start, followed by a space or a period. *)
Definition list_item_shape (buf : pystr) : Prop :=
  exists ds c rest,
    buf = ds ++ c :: rest /\
    ds <> [] /\ forallb isdecimal ds = true /\
    (c = space \/ c = "."%char).

(** The yields of a loop in which no iteration yields. *)
Definition silent (gen : list token) : list (list yielded) :=
  map (fun _ => []) gen.

End Units.

Import Units.

(** ** Python values and dictionaries *)

Module PyVal.

(** The values found in the dictionaries of this code: [None], strings and
    nested dictionaries.  A dictionary is the list of its items in
    insertion order. *)
#[warnings="-register-all"]
Inductive pyval : Type :=
| PNone
| PStr (s : pystr)
| PDict (d : list (pystr * pyval)).

Abbreviation pydict := (list (pystr * pyval)).

(** [a == b] on strings. *)
Fixpoint str_eqb (a b : pystr) : bool :=
  match a, b with
  | [], [] => true
  | x :: a', y :: b' => Ascii.eqb x y && str_eqb a' b'
  | _, _ => false
  end.

(** [d.get(k)]: the value under [k], if any. *)
Fixpoint dict_get (d : pydict) (k : pystr) : option pyval :=
  match d with
  | [] => None
  | (k', v) :: rest => if str_eqb k' k then Some v else dict_get rest k
  end.

(** [k in d] *)
Definition dict_contains (d : pydict) (k : pystr) : bool :=
  match dict_get d k with Some _ => true | None => false end.

(** [d[k] = v]: an existing key keeps its place, a new one goes last. *)
Fixpoint dict_set (d : pydict) (k : pystr) (v : pyval) : pydict :=
  match d with
  | [] => [(k, v)]
  | (k', v') :: rest =>
      if str_eqb k' k then (k', v) :: rest
      else (k', v') :: dict_set rest k v
  end.

(** The dictionary left by [d.pop(k)]. *)
Fixpoint dict_pop (d : pydict) (k : pystr) : pydict :=
  match d with
  | [] => []
  | (k', v') :: rest =>
      if str_eqb k' k then rest else (k', v') :: dict_pop rest k
  end.

(** A dictionary has each key once. *)
Definition dict_ok (d : pydict) : Prop := NoDup (map fst d).

End PyVal.

Import PyVal.

(** ** Chat messages from a transcript *)

Module Chat.

Section Format.

(** The classes [Sender], [Message], [ActionStart] and [ActionFinish] are
    declared outside this code.  [Sender] is kept abstract, [is_bot s]
    standing for [s == Sender.BOT]; of an event log only the attributes
    read here are kept, [params_json] and [response_json] being the values
    of [action_input.params.json()] and [action_output.response.json()]. *)
Variable Sender : Type.
Variable is_bot : Sender -> bool.

Inductive event_log : Type :=
| Message (sender : Sender) (text : pystr)
| ActionStart (action_type : pystr) (params_json : pystr)
| ActionFinish (action_type : pystr) (response_json : pystr)
| OtherEvent.

(** What one iteration appends to [chat_messages]. *)
Definition appended (event : event_log) : list pydict :=
  match event with
  | Message sender text =>
      [[(str "role", PStr (if is_bot sender then str "assistant"
                           else str "user"));
        (str "content", PStr text)]]
  | ActionStart action_type params_json =>
      [[(str "role", PStr (str "assistant"));
        (str "content", PNone);
        (str "function_call",
         PDict [(str "name", PStr action_type);
                (str "arguments", PStr params_json)])]]
  | ActionFinish action_type response_json =>
      [[(str "role", PStr (str "function"));
        (str "name", PStr action_type);
        (str "content", PStr response_json)]]
  | OtherEvent => []
  end.

(** The initial [chat_messages]: the system message [if prompt_preamble],
    that is unless the preamble is [None] or empty. *)
Definition system_messages (prompt_preamble : option pystr) : list pydict :=
  match prompt_preamble with
  | Some p =>
      if truthy p
      then [[(str "role", PStr (str "system")); (str "content", PStr p)]]
      else []
  | None => []
  end.

Definition format_openai_chat_messages_from_transcript
    (event_logs : list event_log) (prompt_preamble : option pystr)
  : list pydict :=
  let chat_messages := system_messages prompt_preamble in
  fold_left (fun msgs event => msgs ++ appended event) event_logs
            chat_messages.

(** The speaker and text of the messages of a transcript, in order. *)
Definition spoken (event_logs : list event_log) : list (bool * pystr) :=
  flat_map (fun event => match event with
                         | Message sender text => [(is_bot sender, text)]
                         | _ => []
                         end) event_logs.

(** The number of event logs that are messages or actions. *)
Definition recognised (event_logs : list event_log) : nat :=
  length (filter (fun event => match event with
                               | OtherEvent => false
                               | _ => true
                               end) event_logs).

End Format.

Arguments Message {Sender} sender text.
Arguments ActionStart {Sender} action_type params_json.
Arguments ActionFinish {Sender} action_type response_json.
Arguments OtherEvent {Sender}.
Arguments appended {Sender} is_bot event.
Arguments format_openai_chat_messages_from_transcript
  {Sender} is_bot event_logs prompt_preamble.
Arguments spoken {Sender} is_bot event_logs.
Arguments recognised {Sender} event_logs.

(** Reading the speaker and text back from chat messages: the messages
    whose role is assistant or user and whose content is a string. *)
Definition read_back (msgs : list pydict) : list (bool * pystr) :=
  flat_map (fun m =>
              match dict_get m (str "role"), dict_get m (str "content") with
              | Some (PStr r), Some (PStr c) =>
                  if str_eqb r (str "assistant") then [(true, c)]
                  else if str_eqb r (str "user") then [(false, c)]
                  else []
              | _, _ => []
              end) msgs.

End Chat.

Import Chat.

(** ** The Pinecone vector store *)

Module Pinecone.

(** [self._text_key] *)
Definition text_key : pystr := str "text".

(** How a call ends: with a value, or with the exception named. *)
Inductive outcome (A : Type) : Type :=
| Returned (a : A)
| IndexError
| KeyError
| ValidationError.
Arguments Returned {A} a.
Arguments IndexError {A}.
Arguments KeyError {A}.
Arguments ValidationError {A}.

(** The [texts] argument, an [Iterable[str]]: a sequence, which can be
    gone through any number of times, or an iterator, which gives each of
    its items once. *)
Inductive iterable : Type :=
| Sequence (l : list pystr)
| Iterator (l : list pystr).

(** What a first pass over [texts] gives, and what a pass gives after an
    earlier complete pass. *)
Definition first_pass (texts : iterable) : list pystr :=
  match texts with Sequence l => l | Iterator l => l end.

Definition second_pass (texts : iterable) : list pystr :=
  match texts with Sequence l => l | Iterator _ => [] end.

(** Truth value of an optional list argument: [None] and [[]] are false. *)
Definition given {A : Type} (o : option (list A)) : bool :=
  match o with Some (_ :: _) => true | _ => false end.

(** The dictionary objects, by address; the metadata dictionaries handed
    to [add_texts] are addresses into this store, so that a dictionary
    passed twice is one object. *)
Abbreviation store := (list pydict).

Definition deref (h : store) (a : nat) : pydict := nth a h [].

Fixpoint store_update (h : store) (a : nat) (d : pydict) : store :=
  match h, a with
  | [], _ => []
  | _ :: rest, 0 => d :: rest
  | x :: rest, S a' => x :: store_update rest a' d
  end.

Section DB.

(** [self._embedding_function], and the identifier drawn by the [n]-th
    call of [uuid.uuid4()]. *)
Variable Embedding : Type.
Variable embedding_function : pystr -> Embedding.
Variable uuid4 : nat -> pystr.

(** An entry of [docs]; its metadata is a dictionary object. *)
Record doc : Type := mkDoc {
  doc_id : pystr;
  doc_values : Embedding;
  doc_metadata : nat
}.

(** The loop [for i, text in enumerate(texts)] from index [i] on. *)
Fixpoint add_texts_loop (metadatas : option (list nat)) (ids : list pystr)
    (i : nat) (texts : list pystr) (h : store) (docs : list doc)
  : store * outcome (list doc) :=
  match texts with
  | [] => (h, Returned docs)
  | text :: rest =>
      let embedding := embedding_function text in
      let lookup :=
        if given metadatas
        then match metadatas with
             | Some ms => match nth_error ms i with
                          | Some a => Some (a, h)
                          | None => None
                          end
             | None => None
             end
        else Some (length h, h ++ [[]]) in
      match lookup with
      | None => (h, IndexError)
      | Some (metadata, h1) =>
          let h2 := store_update h1 metadata
                      (dict_set (deref h1 metadata) text_key (PStr text)) in
          match nth_error ids i with
          | None => (h2, IndexError)
          | Some id =>
              add_texts_loop metadatas ids (S i) rest h2
                             (docs ++ [mkDoc id embedding metadata])
          end
      end
  end.

(** [add_texts], up to the request: the store after the call and, unless
    an exception ended it, the [docs] that are posted and the value
    returned.  When [ids] is [None] or empty, [ids or [...]] goes through
    [texts] once to draw one identifier per item, and the loop over
    [enumerate(texts)] is then a second pass; otherwise the loop is the
    first pass.  The embedding function returns a value for every text. *)
Definition add_texts (h : store) (texts : iterable)
    (metadatas : option (list nat)) (ids : option (list pystr))
  : store * outcome (list doc * list pystr) :=
  let (ids', pass) :=
    match ids with
    | Some (x :: l) => (x :: l, first_pass texts)
    | _ => (map uuid4 (seq 0 (length (first_pass texts))),
            second_pass texts)
    end in
  match add_texts_loop metadatas ids' 0 pass h [] with
  | (h', Returned docs) => (h', Returned (docs, ids'))
  | (h', IndexError) => (h', IndexError)
  | (h', KeyError) => (h', KeyError)
  | (h', ValidationError) => (h', ValidationError)
  end.

(** The vectors as the request body carries them: the metadata of each doc
    as its dictionary is when the request is made. *)
Definition vectors (h : store) (docs : list doc)
  : list (pystr * Embedding * pydict) :=
  map (fun d => (doc_id d, doc_values d, deref h (doc_metadata d))) docs.

(** One of [results["matches"]]: the values under ["metadata"] and
    ["score"], when the keys are there. *)
Variable Score : Type.

Record result_match : Type := mkMatch {
  match_metadata : option pydict;
  match_score : option Score
}.

(** A [Document].  The class is declared outside this code; it takes a
    string as page content, and [Document(page_content=text, ...)] raises
    a validation error when [text] is [None] or a dictionary. *)
Record Document : Type := mkDocument {
  page_content : pyval;
  metadata : pydict
}.

(** [similarity_search_with_score] from the response on: the loop over
    [results["matches"]]. *)
Fixpoint similarity_search_with_score (matches : list result_match)
    (docs : list (Document * Score))
  : outcome (list (Document * Score)) :=
  match matches with
  | [] => Returned docs
  | res :: rest =>
      match match_metadata res with
      | None => KeyError
      | Some md =>
          match dict_get md text_key with
          | Some text =>
              match match_score res with
              | None => KeyError
              | Some score =>
                  match text with
                  | PStr _ =>
                      similarity_search_with_score rest
                        (docs ++ [(mkDocument text (dict_pop md text_key),
                                   score)])
                  | _ => ValidationError
                  end
              end
          | None => similarity_search_with_score rest docs
          end
      end
  end.

(** A match the loop cannot handle for want of a key: it has no metadata,
    or it has a text but no score. *)
Definition key_missing (res : result_match) : Prop :=
  match_metadata res = None \/
  exists md, match_metadata res = Some md /\
             dict_contains md text_key = true /\
             match_score res = None.

(** A match with a score whose text is not a string. *)
Definition text_not_string (res : result_match) : Prop :=
  exists md v score,
    match_metadata res = Some md /\ dict_get md text_key = Some v /\
    match_score res = Some score /\ forall s, v <> PStr s.

(** A match the loop gets past: it is kept or skipped. *)
Definition handled (res : result_match) : Prop :=
  ~ key_missing res /\ ~ text_not_string res.

End DB.

Arguments mkDoc {Embedding} doc_id doc_values doc_metadata.
Arguments doc_id {Embedding} d.
Arguments doc_values {Embedding} d.
Arguments doc_metadata {Embedding} d.
Arguments add_texts_loop {Embedding} embedding_function
  metadatas ids i texts h docs.
Arguments add_texts {Embedding} embedding_function uuid4
  h texts metadatas ids.
Arguments vectors {Embedding} h docs.
Arguments mkMatch {Score} match_metadata match_score.
Arguments match_metadata {Score} r.
Arguments match_score {Score} r.
Arguments similarity_search_with_score {Score} matches docs.
Arguments key_missing {Score} res.
Arguments text_not_string {Score} res.
Arguments handled {Score} res.

(** The text a dictionary object is last used for, when the metadata
    objects [ms] go with the texts one by one. *)
Fixpoint last_text (ms : list nat) (texts : list pystr) (a : nat)
  : option pystr :=
  match ms, texts with
  | m :: ms', t :: texts' =>
      match last_text ms' texts' a with
      | Some t' => Some t'
      | None => if m =? a then Some t else None
      end
  | _, _ => None
  end.

(** The list behind an optional list argument. *)
Definition items {A : Type} (o : option (list A)) : list A :=
  match o with Some l => l | None => [] end.

(** The texts the loop of [add_texts] goes through: all of them, except
    that an iterator already used up for the identifiers gives none. *)
Definition enumerated (texts : iterable) (ids : option (list pystr))
  : list pystr :=
  if given ids then first_pass texts else second_pass texts.

End Pinecone.

Import Pinecone.

(** ** The matcher agrees with the declarative reading of patterns *)

Section ReCorrect.

Lemma one_char_In ok p q :
  In q (one_char ok p) <->
  exists c t, snd p = c :: t /\ ok c = true /\ q = (S (fst p), t).
Proof.
  unfold one_char. destruct p as [n [|c t]]; simpl.
  - split; [tauto | intros (c & t & H & _); discriminate].
  - destruct (ok c) eqn:E; simpl.
    + split.
      * intros [<- | []]. now exists c, t.
      * intros (c' & t' & H & _ & ->). inversion H; subst. now left.
    + split; [tauto | intros (c' & t' & H & Hc & _)].
      inversion H; subst. congruence.
Qed.

Lemma matches_consumes r p q :
  matches r p q ->
  exists u, snd p = u ++ snd q /\ fst q = fst p + length u.
Proof.
  induction 1; simpl;
    try (exists []; simpl; split; [reflexivity | lia]);
    try (exists [c]; simpl; split; [reflexivity | lia]);
    try assumption.
  - destruct IHmatches1 as (u1 & E1 & L1), IHmatches2 as (u2 & E2 & L2).
    exists (u1 ++ u2). rewrite length_app, <- app_assoc, <- E2. split; [assumption | lia].
  - destruct IHmatches1 as (u1 & E1 & L1), IHmatches2 as (u2 & E2 & L2).
    exists (u1 ++ u2). rewrite length_app, <- app_assoc, <- E2. split; [assumption | lia].
Qed.

Lemma matches_no_progress r p q :
  matches r p q -> length (snd p) <= length (snd q) -> q = p.
Proof.
  intros H Hl. destruct (matches_consumes _ _ _ H) as (u & E & L).
  rewrite E, length_app in Hl.
  destruct u as [|c u]; simpl in *; [|lia].
  destruct p, q; simpl in *; subst. f_equal. lia.
Qed.

Lemma iter_plus_sound (r : regex) :
  (forall p q, In q (ends r p) -> matches r p q) ->
  forall fuel p q, In q (iter_plus (ends r) fuel p) -> matches (Plus r) p q.
Proof.
  intros IH fuel. induction fuel as [|fuel IHf]; simpl; intros p q H; [contradiction|].
  apply in_app_or in H. destruct H as [H | H].
  - apply MPlusOne, IH, H.
  - apply in_flat_map in H. destruct H as (m & Hm & Hq).
    destruct (length (snd m) <? length (snd p)); [|contradiction].
    eapply MPlusMore; [apply IH, Hm | apply IHf, Hq].
Qed.

Lemma iter_plus_mono step fuel fuel' p q :
  fuel <= fuel' -> In q (iter_plus step fuel p) -> In q (iter_plus step fuel' p).
Proof.
  revert fuel' p. induction fuel as [|fuel IHf]; simpl; intros fuel' p Hle H;
    [contradiction|].
  destruct fuel' as [|fuel']; [lia|]. simpl.
  apply in_or_app. apply in_app_or in H. destruct H as [H | H]; [now left | right].
  apply in_flat_map in H. destruct H as (m & Hm & Hq).
  apply in_flat_map. exists m. split; [assumption|].
  destruct (length (snd m) <? length (snd p)); [|contradiction].
  apply IHf; [lia | assumption].
Qed.

Theorem ends_sound r : forall p q, In q (ends r p) -> matches r p q.
Proof.
  induction r; simpl; intros p q H.
  - destruct H as [<- | []]. constructor.
  - apply one_char_In in H. destruct H as (x & t & E & Hx & ->).
    destruct p as [n s]; simpl in *; subst.
    apply Ascii.eqb_eq in Hx. subst. constructor.
  - apply one_char_In in H. destruct H as (x & t & E & Hx & ->).
    destruct p as [n s]; simpl in *; subst.
    constructor. intros ->. now rewrite Ascii.eqb_refl in Hx.
  - apply one_char_In in H. destruct H as (x & t & E & Hx & ->).
    destruct p as [n s]; simpl in *; subst. now constructor.
  - apply one_char_In in H. destruct H as (x & t & E & Hx & ->).
    destruct p as [n s]; simpl in *; subst. constructor.
    apply existsb_exists in Hx. destruct Hx as (y & Hy & Exy).
    apply Ascii.eqb_eq in Exy. now subst.
  - destruct p as [n s]; simpl in *.
    destruct (Nat.eqb_spec n 0); [|contradiction].
    destruct H as [<- | []]. subst. constructor.
  - destruct p as [n s]; simpl in *.
    destruct s as [|c [|c' s]]; simpl in H.
    + destruct H as [<- | []]. constructor.
    + destruct (Ascii.eqb_spec c newline); [|contradiction].
      destruct H as [<- | []]. subst. constructor.
    + contradiction.
  - apply in_flat_map in H. destruct H as (m & Hm & Hq).
    eapply MCat; eauto.
  - apply in_app_or in H. destruct H; [apply MOrL | apply MOrR]; auto.
  - apply iter_plus_sound with (fuel := S (length (snd p))); assumption.
Qed.

Theorem ends_complete r p q : matches r p q -> In q (ends r p).
Proof.
  induction 1; simpl; try (now left).
  - apply one_char_In. exists c, t. now rewrite Ascii.eqb_refl.
  - apply one_char_In. exists c, t. simpl. repeat split.
    destruct (Ascii.eqb_spec c newline); [contradiction | reflexivity].
  - apply one_char_In. now exists c, t.
  - apply one_char_In. exists c, t. simpl. repeat split.
    apply existsb_exists. exists c. split; [assumption | apply Ascii.eqb_refl].
  - apply in_flat_map. eauto.
  - apply in_or_app. now left.
  - apply in_or_app. now right.
  - apply in_or_app. now left.
  - destruct (le_lt_dec (length (snd p)) (length (snd q))) as [Hle | Hlt].
    + rewrite (matches_no_progress _ _ _ H Hle) in IHmatches2. exact IHmatches2.
    + apply in_or_app. right. apply in_flat_map. exists q. split; [assumption|].
      cbv beta.
      destruct (Nat.ltb_spec (length (snd q)) (length (snd p))); [|lia].
      apply iter_plus_mono with (fuel := S (length (snd q))); [lia | assumption].
Qed.

Lemma matches_at_iff r p : matches_at r p = true <-> exists q, matches r p q.
Proof.
  unfold matches_at. split.
  - destruct (ends r p) as [|q l] eqn:E; [discriminate|]. intros _.
    exists q. apply ends_sound. rewrite E. now left.
  - intros (q & H). apply ends_complete in H.
    destruct (ends r p); [contradiction | reflexivity].
Qed.

Lemma search_from_iff r t : forall n,
  search_from r n t = true <->
  exists pre suf, t = pre ++ suf /\ matches_at r (n + length pre, suf) = true.
Proof.
  induction t as [|c t IH]; simpl; intros n.
  - rewrite orb_false_r. split.
    + intros H. exists [], []. simpl. now rewrite Nat.add_0_r.
    + intros (pre & suf & E & H). symmetry in E. apply app_eq_nil in E.
      destruct E; subst. simpl in H. now rewrite Nat.add_0_r in H.
  - rewrite orb_true_iff, IH. split.
    + intros [H | (pre & suf & E & H)].
      * exists [], (c :: t). simpl. now rewrite Nat.add_0_r.
      * exists (c :: pre), suf. simpl. subst.
        split; [reflexivity|]. now rewrite Nat.add_succ_r.
    + intros (pre & suf & E & H). destruct pre as [|c' pre]; simpl in *.
      * left. subst. now rewrite Nat.add_0_r in H.
      * right. inversion E; subst. exists pre, suf.
        split; [reflexivity|]. now rewrite Nat.add_succ_r in H.
Qed.

Lemma re_findall_iff r s :
  re_findall r s = true <->
  exists pre suf q, s = pre ++ suf /\ matches r (length pre, suf) q.
Proof.
  unfold re_findall. rewrite search_from_iff. split.
  - intros (pre & suf & E & H). apply matches_at_iff in H. destruct H as (q & H).
    now exists pre, suf, q.
  - intros (pre & suf & q & E & H). exists pre, suf. split; [assumption|].
    apply matches_at_iff. now exists q.
Qed.

End ReCorrect.

(** ** Facts about [strip] *)

Section StripFacts.

Lemma lstrip_split s :
  exists l, s = l ++ lstrip s /\ forallb isspace l = true.
Proof.
  induction s as [|c s (l & E & Hl)]; simpl.
  - now exists [].
  - destruct (isspace c) eqn:Hc.
    + exists (c :: l). simpl. rewrite Hc, Hl. now rewrite <- E.
    + now exists [].
Qed.

Lemma lstrip_head s :
  lstrip s = [] \/ exists c t, lstrip s = c :: t /\ isspace c = false.
Proof.
  induction s as [|c s IH]; simpl; [now left|].
  destruct (isspace c) eqn:Hc; [assumption | right; now exists c, s].
Qed.

Lemma lstrip_fixed c t : isspace c = false -> lstrip (c :: t) = c :: t.
Proof. intros H. simpl. now rewrite H. Qed.

Lemma lstrip_idem s : lstrip (lstrip s) = lstrip s.
Proof.
  destruct (lstrip_head s) as [-> | (c & t & -> & Hc)];
    [reflexivity | now apply lstrip_fixed].
Qed.

Lemma lstrip_keeps c s : In c s -> isspace c = false -> In c (lstrip s).
Proof.
  induction s as [|x s IH]; simpl; intros H Hc; [contradiction|].
  destruct (isspace x) eqn:Hx; [|exact H].
  destruct H as [-> | H]; [congruence | now apply IH].
Qed.

Lemma rstrip_split s :
  exists r, s = rstrip s ++ r /\ forallb isspace r = true.
Proof.
  unfold rstrip. destruct (lstrip_split (rev s)) as (l & E & Hl).
  exists (rev l). split.
  - rewrite <- rev_app_distr, <- E. symmetry. apply rev_involutive.
  - rewrite forallb_forall in *. intros x Hx. apply Hl. now apply in_rev.
Qed.

Lemma rstrip_idem s : rstrip (rstrip s) = rstrip s.
Proof. unfold rstrip. now rewrite rev_involutive, lstrip_idem. Qed.

Lemma rstrip_keeps c s : In c s -> isspace c = false -> In c (rstrip s).
Proof.
  intros H Hc. unfold rstrip. apply -> in_rev.
  apply lstrip_keeps; [apply -> in_rev; assumption | assumption].
Qed.

Lemma strip_split s :
  exists l r, s = l ++ strip s ++ r /\
              forallb isspace l = true /\ forallb isspace r = true.
Proof.
  destruct (lstrip_split s) as (l & E & Hl).
  destruct (rstrip_split (lstrip s)) as (r & E' & Hr).
  exists l, r. unfold strip. now rewrite <- E', <- E.
Qed.

Lemma strip_keeps c s : In c s -> isspace c = false -> In c (strip s).
Proof.
  intros H Hc. unfold strip. apply rstrip_keeps; [|assumption].
  now apply lstrip_keeps.
Qed.

Lemma strip_idem s : strip (strip s) = strip s.
Proof.
  unfold strip at 1.
  assert (E : lstrip (strip s) = strip s).
  { unfold strip. destruct (rstrip_split (lstrip s)) as (r & E & _).
    destruct (lstrip_head s) as [H0 | (c & t & Hs & Hc)].
    - rewrite H0. reflexivity.
    - rewrite Hs in *. destruct (rstrip (c :: t)) as [|x u]; [reflexivity|].
      simpl in E. inversion E; subst. now apply lstrip_fixed. }
  rewrite E. unfold strip. apply rstrip_idem.
Qed.

Lemma truthy_true (s : pystr) : truthy s = true <-> s <> [].
Proof. destruct s; simpl; split; congruence. Qed.

End StripFacts.

(** ** The money pattern *)

Section MoneyPattern.

Lemma digit_step p q :
  matches Digit p q ->
  exists c t, snd p = c :: t /\ isdecimal c = true /\ q = (S (fst p), t).
Proof. intros H. apply ends_complete in H. now apply one_char_In in H. Qed.

Lemma plus_digit_run n t q :
  matches (Plus Digit) (n, t) q <->
  exists ds, ds <> [] /\ forallb isdecimal ds = true /\
             t = ds ++ snd q /\ fst q = n + length ds.
Proof.
  split.
  - intros H. remember (Plus Digit) as r eqn:Er. remember (n, t) as p eqn:Ep.
    revert n t Ep. induction H; try discriminate; intros n0 t0 ->;
      inversion Er; subst.
    + apply digit_step in H. destruct H as (c & t & E & Hc & ->).
      simpl in *. subst. exists [c]. simpl. rewrite Hc.
      repeat split; [discriminate | lia].
    + apply digit_step in H. destruct H as (c & t & E & Hc & ->).
      simpl in *. subst.
      destruct (IHmatches2 eq_refl _ _ eq_refl) as (ds & _ & Hd & E & L).
      exists (c :: ds). simpl. rewrite Hc, Hd, E, L.
      repeat split; [discriminate | lia].
  - intros (ds & Hne & Hd & E & L). destruct q as [m t']. simpl in *. subst.
    revert n. induction ds as [|c ds IH]; [congruence|]. intros n.
    simpl in Hd. apply andb_true_iff in Hd. destruct Hd as [Hc Hd].
    destruct ds as [|c' ds].
    + simpl. replace (n + 1) with (S n) by lia.
      apply MPlusOne. now constructor.
    + eapply MPlusMore; [now constructor|].
      replace (n + length (c :: c' :: ds)) with (S n + length (c' :: ds))
        by (simpl; lia).
      apply IH; [discriminate | assumption].
Qed.

Lemma cat_inv r1 r2 p u :
  matches (Cat r1 r2) p u <-> exists q, matches r1 p q /\ matches r2 q u.
Proof.
  split.
  - intros H. inversion H; subst. eauto.
  - intros (q & H1 & H2). eapply MCat; eauto.
Qed.

Lemma chr_inv c p q :
  matches (Chr c) p q <-> exists t, snd p = c :: t /\ q = (S (fst p), t).
Proof.
  split.
  - intros H. inversion H; subst. simpl. eauto.
  - intros (t & E & ->). destruct p as [n s]. simpl in *. subst. constructor.
Qed.

Lemma any_inv p q :
  matches AnyChar p q <->
  exists c t, snd p = c :: t /\ c <> newline /\ q = (S (fst p), t).
Proof.
  split.
  - intros H. inversion H; subst. simpl. eauto.
  - intros (c & t & E & Hc & ->). destruct p as [n s]. simpl in *. subst.
    now constructor.
Qed.

Lemma eos_inv p q :
  matches Eos p q <-> q = p /\ (snd p = [] \/ snd p = [newline]).
Proof.
  split.
  - intros H. inversion H; subst; simpl; auto.
  - intros (-> & [E | E]); destruct p as [n s]; simpl in *; subst; constructor.
Qed.

Lemma money_pattern_at n t :
  (exists q, matches money_pattern (n, t) q) <->
  exists ds c tl,
    t = "$"%char :: ds ++ c :: tl /\
    ds <> [] /\ forallb isdecimal ds = true /\
    c <> newline /\ (tl = [] \/ tl = [newline]).
Proof.
  unfold money_pattern. split.
  - intros (q & H).
    apply cat_inv in H. destruct H as (q1 & H1 & H).
    apply chr_inv in H1. destruct H1 as (t1 & E1 & ->). simpl in E1. subst t.
    apply cat_inv in H. destruct H as (q2 & H2 & H).
    apply plus_digit_run in H2. destruct H2 as (ds & Hne & Hd & E2 & _).
    apply cat_inv in H. destruct H as (q3 & H3 & H).
    apply any_inv in H3. destruct H3 as (c & tl & E3 & Hc & ->).
    apply eos_inv in H. destruct H as (_ & Htl). simpl in Htl.
    exists ds, c, tl. rewrite E2, E3. now repeat split.
  - intros (ds & c & tl & -> & Hne & Hd & Hc & Htl).
    exists (S (S n + length ds), tl).
    apply cat_inv. exists (S n, ds ++ c :: tl). split.
    { apply chr_inv. simpl. eauto. }
    apply cat_inv. exists (S n + length ds, c :: tl). split.
    { apply plus_digit_run. exists ds. now repeat split. }
    apply cat_inv. exists (S (S n + length ds), tl). split.
    { apply any_inv. simpl. exists c, tl. now repeat split. }
    apply eos_inv. now split.
Qed.

Theorem ends_with_money_shape buf :
  ends_with_money buf = true <-> money_shape buf.
Proof.
  unfold ends_with_money, money_shape. rewrite re_findall_iff. split.
  - intros (pre & suf & q & E & H).
    assert (Hq : exists q, matches money_pattern (length pre, suf) q)
      by now exists q.
    apply money_pattern_at in Hq.
    destruct Hq as (ds & c & tl & -> & Hrest). now exists pre, ds, c, tl.
  - intros (pre & ds & c & tl & E & Hrest).
    assert (Hq : exists q, matches money_pattern
                             (length pre, "$"%char :: ds ++ c :: tl) q).
    { apply money_pattern_at. now exists ds, c, tl. }
    destruct Hq as (q & Hq). now exists pre, ("$"%char :: ds ++ c :: tl), q.
Qed.

Lemma ends_with_money_strip buf :
  ends_with_money buf = true -> strip buf <> [].
Proof.
  intros H. apply ends_with_money_shape in H.
  destruct H as (pre & ds & c & tl & -> & _).
  assert (Hin : In "$"%char (strip (pre ++ "$"%char :: ds ++ c :: tl))).
  { apply strip_keeps; [|reflexivity]. apply in_or_app. right. now left. }
  intros E. rewrite E in Hin. contradiction.
Qed.

End MoneyPattern.

(** ** The collator loop *)

Section Collator.

Variable pattern : regex.

Lemma emitted_app a b : emitted (a ++ b) = emitted a ++ emitted b.
Proof. unfold emitted. now rewrite map_app, filter_app, map_app. Qed.

Lemma emitted_concat segss :
  List.concat (map emitted segss) = emitted (List.concat segss).
Proof.
  induction segss as [|a l IH]; simpl; [reflexivity|].
  now rewrite emitted_app, IH.
Qed.

Lemma utterances_emitted segs :
  utterances (emitted segs) = filter truthy (map strip segs).
Proof.
  unfold emitted. induction (filter truthy (map strip segs)) as [|u l IH];
    simpl; [reflexivity | now rewrite IH].
Qed.

Lemma utterances_app a b : utterances (a ++ b) = utterances a ++ utterances b.
Proof. apply flat_map_app. Qed.

Lemma emitted_one s :
  emitted [s] = if truthy (strip s) then [Utterance (strip s)] else [].
Proof. unfold emitted. simpl. now destruct (truthy (strip s)). Qed.

Lemma emitted_length segs : length (emitted segs) <= length segs.
Proof.
  unfold emitted. rewrite length_map.
  etransitivity; [apply filter_length_le | now rewrite length_map].
Qed.

Lemma emitted_In y segs :
  In y (emitted segs) ->
  exists u, y = Utterance u /\ u <> [] /\ strip u = u.
Proof.
  unfold emitted. rewrite in_map_iff. intros (u & <- & H).
  apply filter_In in H. destruct H as (H & Hu).
  apply in_map_iff in H. destruct H as (seg & <- & _).
  exists (strip seg). split; [reflexivity|].
  split; [now apply truthy_true | apply strip_idem].
Qed.

Lemma text_step_spec st tok st' out :
  flag_sound st ->
  text_step pattern st tok = (st', out) ->
  flag_sound st' /\
  function_buffer st' = function_buffer st /\
  exists segs,
    List.concat segs ++ buffer st' = buffer st ++ tok /\
    out = emitted segs /\ length segs <= 2.
Proof.
  intros Hinv. unfold text_step.
  destruct (prev_ends_with_money st && startswith tok [space]) eqn:Hflush.
  - apply andb_true_iff in Hflush. destruct Hflush as [Hprev _].
    assert (Hb : truthy (strip (buffer st)) = true)
      by (apply truthy_true, ends_with_money_strip, Hinv, Hprev).
    simpl app.
    destruct (re_findall _ tok);
      [destruct (ends_with_money tok) eqn:Hm; simpl negb; cbv iota|];
      intros E; inversion E; subst; clear E;
      (split; [unfold flag_sound; simpl; congruence|]);
      (split; [reflexivity|]).
    + exists [buffer st]. simpl. rewrite app_nil_r, emitted_one, Hb. auto.
    + exists [buffer st; tok]. simpl. rewrite !app_nil_r.
      change [buffer st; tok] with ([buffer st] ++ [tok]).
      rewrite emitted_app, !emitted_one, Hb. auto.
    + exists [buffer st]. simpl. rewrite app_nil_r, emitted_one, Hb. auto.
  - destruct (re_findall _ tok);
      [destruct (ends_with_money (buffer st ++ tok)) eqn:Hm; simpl negb;
       cbv iota|];
      intros E; inversion E; subst; clear E;
      (split; [unfold flag_sound; simpl; congruence|]);
      (split; [reflexivity|]).
    + exists []. simpl. auto.
    + exists [buffer st ++ tok]. simpl. rewrite !app_nil_r, emitted_one. auto.
    + exists []. simpl. auto.
Qed.

Lemma step_spec st tok st' out :
  flag_sound st ->
  step pattern st tok = (st', out) ->
  flag_sound st' /\
  function_buffer st' = function_buffer st ++ fragment_of tok /\
  exists segs,
    List.concat segs ++ buffer st' = buffer st ++ text_of tok /\
    out = emitted segs /\ cut_for tok segs.
Proof.
  intros Hinv. destruct tok as [s | text]; simpl.
  - destruct s as [|c s]; simpl truthy; cbv iota.
    + intros E. inversion E; subst. rewrite !app_nil_r.
      repeat split; [assumption|]. exists []. unfold cut_for. simpl. repeat split; auto.
    + intros E. destruct (text_step_spec _ _ _ _ Hinv E) as (Hi & Hf & segs & Hc & Ho & Hl).
      rewrite app_nil_r. repeat split; try assumption.
      exists segs. unfold cut_for. repeat split; auto.
  - intros E. inversion E; subst. simpl. rewrite app_nil_r.
    repeat split; [exact Hinv|]. exists []. unfold cut_for. simpl. repeat split; auto.
Qed.

Lemma loop_spec gen : forall st st' outs,
  flag_sound st ->
  loop pattern st gen = (st', outs) ->
  flag_sound st' /\
  function_buffer st' = function_buffer st ++ fragments gen /\
  exists segss,
    Forall2 cut_for gen segss /\
    outs = map emitted segss /\
    List.concat (List.concat segss) ++ buffer st' = buffer st ++ texts gen.
Proof.
  induction gen as [|tok gen IH]; simpl; intros st st' outs Hinv E.
  - inversion E; subst. rewrite !app_nil_r. split; [assumption|].
    split; [reflexivity|]. exists []. simpl. auto.
  - destruct (step pattern st tok) as [st1 out] eqn:Es.
    destruct (loop pattern st1 gen) as [st2 outs2] eqn:El.
    inversion E; subst; clear E.
    destruct (step_spec _ _ _ _ Hinv Es) as (Hi1 & Hf1 & segs & Hc1 & -> & Hcut).
    destruct (IH _ _ _ Hi1 El) as (Hi2 & Hf2 & segss & HF & -> & Hc2).
    split; [assumption|]. split.
    + unfold fragments in *. simpl. now rewrite Hf2, Hf1, app_assoc.
    + exists (segs :: segss). split; [now constructor|]. split; [reflexivity|].
      simpl. rewrite concat_app, <- app_assoc, Hc2.
      unfold texts. simpl. now rewrite !app_assoc, Hc1.
Qed.

Lemma finish_spec get_functions st :
  finish get_functions st =
  emitted [buffer st]
  ++ (if truthy (function_buffer st) && get_functions
      then [FunctionCall (function_buffer st)] else []).
Proof. unfold finish. now rewrite emitted_one. Qed.

End Collator.

Lemma flag_sound_initial : flag_sound initial.
Proof. unfold flag_sound. simpl. discriminate. Qed.

(** Whenever the loop stands with the money flag set, the buffer strips to
    something: the unguarded [yield buffer.strip()] never yields an empty
    string. *)
Lemma money_flush_never_blank gen sentence_endings st outs :
  loop (sentence_endings_pattern sentence_endings) initial gen = (st, outs) ->
  prev_ends_with_money st = true ->
  strip (buffer st) <> [].
Proof.
  intros El Hprev.
  destruct (loop_spec _ _ _ _ _ flag_sound_initial El) as (Hi & _).
  apply ends_with_money_strip, Hi, Hprev.
Qed.

(** The whole run in terms of the segments cut from the text. *)
Lemma collate_trace_spec gen sentence_endings get_functions :
  exists segss last_seg,
    Forall2 cut_for gen segss /\
    List.concat (List.concat segss) ++ last_seg = texts gen /\
    collate_trace gen sentence_endings get_functions =
      (map emitted segss,
       emitted [last_seg]
       ++ (if truthy (fragments gen) && get_functions
           then [FunctionCall (fragments gen)] else [])).
Proof.
  unfold collate_trace.
  destruct (loop (sentence_endings_pattern sentence_endings) initial gen)
    as [st outs] eqn:El.
  destruct (loop_spec _ _ _ _ _ flag_sound_initial El)
    as (_ & Hf & segss & HF & -> & Hc).
  simpl in Hf, Hc. exists segss, (buffer st).
  repeat split; try assumption. now rewrite finish_spec, Hf.
Qed.

(** ** The buffer helpers *)

Section Helpers.

Local Open Scope Z_scope.

Lemma startswith_char s c :
  startswith s [c] =
  match s with x :: _ => Ascii.eqb c x | [] => false end.
Proof. destruct s; simpl; [reflexivity | apply andb_true_r]. Qed.

(** [rfind] of a one-character needle: -1 when the character is absent,
    otherwise the index of its last occurrence. *)
Lemma rfind_from_char d s : forall i,
  0 <= i ->
  (rfind_from s [d] i = -1 /\ ~ In d s) \/
  (exists j, rfind_from s [d] i = i + Z.of_nat j /\
             nth_error s j = Some d /\
             forall j', (j < j')%nat -> nth_error s j' <> Some d).
Proof.
  induction s as [|x t IH]; intros i Hi.
  - left. simpl. auto.
  - cbn [rfind_from]. rewrite startswith_char.
    destruct (IH (i + 1)) as [(E & Hn) | (j & E & Hj & Hlast)]; [lia | |].
    + rewrite E. simpl Z.leb. cbv iota.
      destruct (Ascii.eqb_spec d x) as [-> | Hd].
      * right. exists 0%nat. split; [simpl; lia|]. split; [reflexivity|].
        intros [|j'] Hlt; [lia|]. simpl. intros Hx.
        apply nth_error_In in Hx. contradiction.
      * left. split; [reflexivity|]. simpl. intros [-> | H]; auto.
    + right. exists (S j). rewrite E.
      destruct (Z.leb_spec 0 (i + 1 + Z.of_nat j)); [|lia].
      split; [lia|]. split; [assumption|].
      intros [|j'] Hlt; [lia|]. simpl. apply Hlast. lia.
Qed.

Lemma rfind_char d s :
  (rfind s [d] = -1 /\ ~ In d s) \/
  (exists j, rfind s [d] = Z.of_nat j /\
             nth_error s j = Some d /\
             forall j', (j < j')%nat -> nth_error s j' <> Some d).
Proof. apply (rfind_from_char d s 0). lia. Qed.

Lemma rfind_absent d s : ~ In d s -> rfind s [d] = -1.
Proof.
  intros Hn. destruct (rfind_char d s) as [(E & _) | (j & _ & Hj & _)];
    [assumption|].
  apply nth_error_In in Hj. contradiction.
Qed.

Lemma rfind_last d s k :
  nth_error s k = Some d ->
  (forall j, (k < j)%nat -> nth_error s j <> Some d) ->
  rfind s [d] = Z.of_nat k.
Proof.
  intros Hk Hlast. destruct (rfind_char d s) as [(_ & Hn) | (j & E & Hj & Hl)].
  - apply nth_error_In in Hk. contradiction.
  - rewrite E. f_equal.
    destruct (Nat.lt_trichotomy j k) as [Hlt | [-> | Hgt]]; [|reflexivity|].
    + now apply Hl in Hlt.
    + now apply Hlast in Hgt.
Qed.

Lemma rfind_bound d s k :
  (forall j, (k < j)%nat -> nth_error s j <> Some d) ->
  -1 <= rfind s [d] <= Z.of_nat k.
Proof.
  intros Hlast. destruct (rfind_char d s) as [(E & _) | (j & E & Hj & _)];
    rewrite E; [lia|].
  split; [lia|]. apply Nat2Z.inj_le.
  destruct (le_lt_dec j k) as [Hle | Hgt]; [assumption|].
  now apply Hlast in Hgt.
Qed.

Lemma is_terminator_cases c :
  is_terminator c <->
  c = "."%char \/ c = "!"%char \/ c = "?"%char \/ c = newline.
Proof.
  unfold is_terminator, SENTENCE_ENDINGS. simpl. split.
  - intros [H | [H | [H | [H | []]]]]; inversion H; auto.
  - intros [-> | [-> | [-> | ->]]]; auto.
Qed.

Lemma find_last_punctuation_unfold buf :
  find_last_punctuation buf =
  Some (Z.max (Z.max (Z.max (rfind buf ["."%char]) (rfind buf ["!"%char]))
                     (rfind buf ["?"%char]))
              (rfind buf [newline])).
Proof. reflexivity. Qed.

(** When no terminator occurs the helper returns the integer -1. *)
Lemma find_last_punctuation_absent buf :
  (forall x, In x buf -> ~ is_terminator x) ->
  find_last_punctuation buf = Some (-1).
Proof.
  intros Hn. rewrite find_last_punctuation_unfold.
  rewrite !rfind_absent; [reflexivity | | | |];
    intros H; apply Hn in H; apply H, is_terminator_cases; auto.
Qed.

(** When a terminator occurs the helper returns the index of the last
    one. *)
Lemma find_last_punctuation_last buf k c :
  nth_error buf k = Some c -> is_terminator c ->
  (forall j x, (k < j)%nat -> nth_error buf j = Some x -> ~ is_terminator x) ->
  find_last_punctuation buf = Some (Z.of_nat k).
Proof.
  intros Hk Hc Hlast. rewrite find_last_punctuation_unfold.
  assert (Hb : forall d, is_terminator d -> -1 <= rfind buf [d] <= Z.of_nat k).
  { intros d Hd. apply rfind_bound. intros j Hlt Hj.
    exact (Hlast j d Hlt Hj Hd). }
  assert (He : rfind buf [c] = Z.of_nat k).
  { apply rfind_last; [assumption|]. intros j Hlt Hj.
    exact (Hlast j c Hlt Hj Hc). }
  pose proof (Hb "."%char) as B1. pose proof (Hb "!"%char) as B2.
  pose proof (Hb "?"%char) as B3. pose proof (Hb newline) as B4.
  specialize (B1 ltac:(apply is_terminator_cases; auto)).
  specialize (B2 ltac:(apply is_terminator_cases; auto)).
  specialize (B3 ltac:(apply is_terminator_cases; auto)).
  specialize (B4 ltac:(apply is_terminator_cases; auto)).
  f_equal. apply is_terminator_cases in Hc.
  destruct Hc as [-> | [-> | [-> | ->]]]; lia.
Qed.

Lemma slice_to_nat buf n :
  slice_to buf (Z.of_nat n) = firstn n buf.
Proof.
  unfold slice_to, slice_index.
  destruct (Z.ltb_spec (Z.of_nat n) 0); [lia|].
  destruct (le_lt_dec n (length buf)) as [Hle | Hgt].
  - f_equal. lia.
  - rewrite !firstn_all2; [reflexivity | lia | lia].
Qed.

Lemma slice_from_nat buf n :
  slice_from buf (Z.of_nat n) = skipn n buf.
Proof.
  unfold slice_from, slice_index.
  destruct (Z.ltb_spec (Z.of_nat n) 0); [lia|].
  destruct (le_lt_dec n (length buf)) as [Hle | Hgt].
  - f_equal. lia.
  - rewrite !skipn_all2; [reflexivity | lia | lia].
Qed.

(** A last terminator at an index other than 0 splits the buffer right
    after it. *)
Lemma get_sentence_after_last buf k c :
  nth_error buf (S k) = Some c -> is_terminator c ->
  (forall j x, (S k < j)%nat -> nth_error buf j = Some x ->
               ~ is_terminator x) ->
  get_sentence_from_buffer buf =
    (Some (firstn (S (S k)) buf), Some (skipn (S (S k)) buf)).
Proof.
  intros Hk Hc Hlast. unfold get_sentence_from_buffer.
  rewrite (find_last_punctuation_last buf (S k) c Hk Hc Hlast).
  cbn [truthy_opt_int]. destruct (Z.eqb_spec (Z.of_nat (S k)) 0); [lia|].
  cbn [negb]. replace (Z.of_nat (S k) + 1) with (Z.of_nat (S (S k))) by lia.
  now rewrite slice_to_nat, slice_from_nat.
Qed.

(** Without any terminator the helper still returns a pair of strings. *)
Lemma get_sentence_no_terminator buf :
  (forall x, In x buf -> ~ is_terminator x) ->
  get_sentence_from_buffer buf = (Some [], Some buf).
Proof.
  intros Hn. unfold get_sentence_from_buffer.
  rewrite (find_last_punctuation_absent buf Hn). cbn [truthy_opt_int].
  simpl. unfold slice_to, slice_from, slice_index. simpl.
  now rewrite Z.min_r by lia.
Qed.

End Helpers.

(** ** Properties of the collator *)

Section CollatorProperties.

Variables (gen : list token) (sentence_endings : list pystr)
          (get_functions : bool).

(** The utterances of a run are the stripped, non-empty segments of a
    division of the input text. *)
Lemma collate_utterances :
  exists segs,
    List.concat segs = texts gen /\
    utterances (collate_response_async gen sentence_endings get_functions)
    = filter truthy (map strip segs).
Proof.
  destruct (collate_trace_spec gen sentence_endings get_functions)
    as (segss & last_seg & _ & Hc & E).
  exists (List.concat segss ++ [last_seg]). split.
  - rewrite concat_app. simpl. now rewrite app_nil_r.
  - unfold collate_response_async. rewrite E.
    rewrite emitted_concat, app_assoc, <- emitted_app, utterances_app.
    rewrite utterances_emitted.
    destruct (truthy (fragments gen) && get_functions); simpl;
      now rewrite app_nil_r.
Qed.

(** C2: on a run to the end of the input, the text of all [Text] units is
    divided into consecutive segments, nothing left out and nothing twice,
    and the emitted utterances are, in order, these segments stripped, a
    segment that strips to nothing giving no utterance; stripping a segment
    removes only whitespace at its two ends. *)
Theorem collate_keeps_all_text :
  exists segs,
    List.concat segs = texts gen /\
    utterances (collate_response_async gen sentence_endings get_functions)
    = filter truthy (map strip segs) /\
    Forall (fun seg => exists l r,
                seg = l ++ strip seg ++ r /\
                forallb isspace l = true /\ forallb isspace r = true) segs.
Proof.
  destruct collate_utterances as (segs & Hc & Hu).
  exists segs. repeat split; try assumption.
  apply Forall_forall. intros seg _. apply strip_split.
Qed.

(** C8: every utterance the collator yields, whichever [yield] produced it,
    is already stripped and is not empty. *)
Theorem utterances_never_blank :
  Forall (fun u => u <> [] /\ strip u = u /\ strip u <> [])
         (utterances
            (collate_response_async gen sentence_endings get_functions)).
Proof.
  destruct collate_utterances as (segs & _ & ->).
  apply Forall_forall. intros u Hu.
  apply filter_In in Hu. destruct Hu as (Hu & Ht).
  apply in_map_iff in Hu. destruct Hu as (seg & <- & _).
  apply truthy_true in Ht. rewrite strip_idem. auto.
Qed.

(** C9: the loop yields utterances only; the code after the loop yields at
    most one utterance and then, exactly when [get_functions] is set and
    some fragment text was collected, one [FunctionCall] carrying all the
    fragment texts in arrival order.  So the [FunctionCall] comes at most
    once, after the input has ended, and last. *)
Theorem function_call_once_at_end :
  exists us_loop us_end,
    let call := if truthy (fragments gen) && get_functions
                then [FunctionCall (fragments gen)] else [] in
    fst (collate_trace gen sentence_endings get_functions)
      = map (map Utterance) us_loop /\
    snd (collate_trace gen sentence_endings get_functions)
      = map Utterance us_end ++ call /\
    collate_response_async gen sentence_endings get_functions
      = map Utterance (List.concat us_loop ++ us_end) ++ call.
Proof.
  destruct (collate_trace_spec gen sentence_endings get_functions)
    as (segss & last_seg & _ & _ & E).
  exists (map (fun segs => filter truthy (map strip segs)) segss),
         (filter truthy (map strip [last_seg])).
  unfold collate_response_async. rewrite E. cbn [fst snd].
  split; [|split].
  - rewrite map_map. reflexivity.
  - reflexivity.
  - rewrite map_app, concat_map, map_map, <- app_assoc. reflexivity.
Qed.

(** C7, as the code has it: a [Text] unit yields at most two values, all of
    them utterances, a [FunctionFragment] unit yields nothing, and the code
    after the loop yields at most one utterance followed by at most one
    [FunctionCall]. *)
Theorem yields_per_unit :
  Forall2 (fun tok out =>
             match tok with
             | Text _ => length out <= 2 /\ Forall is_utterance out
             | FunctionFragment _ => out = []
             end)
          gen (fst (collate_trace gen sentence_endings get_functions)) /\
  exists us call,
    snd (collate_trace gen sentence_endings get_functions)
      = map Utterance us ++ call /\
    length us <= 1 /\ (call = [] \/ exists text, call = [FunctionCall text]).
Proof.
  destruct (collate_trace_spec gen sentence_endings get_functions)
    as (segss & last_seg & HF & _ & E).
  rewrite E. cbn [fst snd]. split.
  - clear E. induction HF as [|tok segs l l' Hcut HF IH]; simpl;
      constructor; [|assumption].
    destruct Hcut as (Hlen & Htok). destruct tok as [s | text].
    + split.
      * etransitivity; [apply emitted_length | assumption].
      * apply Forall_forall. intros y Hy.
        apply emitted_In in Hy. destruct Hy as (u & -> & _). exact I.
    + now subst.
  - exists (filter truthy (map strip [last_seg])),
           (if truthy (fragments gen) && get_functions
            then [FunctionCall (fragments gen)] else []).
    split; [reflexivity|]. split.
    + simpl. destruct (truthy (strip last_seg)); simpl; lia.
    + destruct (truthy (fragments gen) && get_functions); eauto.
Qed.

End CollatorProperties.

(** The list-item ending is found in a token exactly when the token
    contains a newline. *)
Lemma re_findall_newline tok :
  re_findall list_item_ending_pattern tok = existsb (Ascii.eqb newline) tok.
Proof.
  unfold re_findall. generalize 0%nat.
  induction tok as [|c t IH]; intros n; [reflexivity|].
  cbn [search_from existsb]. rewrite IH. f_equal.
  unfold matches_at, list_item_ending_pattern. cbn [ends].
  unfold one_char. cbn [snd fst].
  now destruct (Ascii.eqb newline c).
Qed.

(** With no sentence endings the joined pattern is empty and is found in
    every token. *)
Lemma empty_endings_always_found tok :
  re_findall (sentence_endings_pattern []) tok = true.
Proof. destruct tok; reflexivity. Qed.

(** ** The collator on particular inputs *)

Section Examples.

Example list_item_buffers :
  map possible_list_item
      [str "1. "; str "12 "; str "1."; str "1"; str "a1."; str " 1."; str ".1"]
  = [true; true; true; false; false; false; false].
Proof. reflexivity. Qed.

Example money_buffers :
  map ends_with_money
      [str "$5."; str "$50"; str "a $12x"; str "$5." ++ [newline];
       str "$5"; str "$5.0"; str "$5.00"; str "$.5"; str "$5" ++ [newline];
       str "5.0"]
  = [true; true; true; true; false; false; false; false; false; false].
Proof. reflexivity. Qed.

Example strip_examples :
  map strip [str "  a b  "; [newline; space]; []; str "a"]
  = [str "a b"; []; []; str "a"].
Proof. reflexivity. Qed.

Example rfind_examples :
  map (rfind (str "a.b.c")) [str "."; str "!"; str "c"; str "b."; []]
  = [3; -1; 4; 2; 5]%Z.
Proof. reflexivity. Qed.

(** C1, as the code has it: the three chunks give two utterances; the
    buffer is flushed after the chunk [".00 for"]. *)
Theorem money_chunks_two_utterances :
  collate_response_async
    [Text (str "That costs $5"); Text (str ".00 for"); Text (str " one.")]
    SENTENCE_ENDINGS false
  = [Utterance (str "That costs $5.00 for"); Utterance (str "one.")].
Proof. vm_compute. reflexivity. Qed.

(** C1 as stated fails: the three chunks do not give the single utterance
    ["That costs $5.00 for one."]. *)
Lemma money_chunks_not_one_utterance :
  collate_response_async
    [Text (str "That costs $5"); Text (str ".00 for"); Text (str " one.")]
    SENTENCE_ENDINGS false
  <> [Utterance (str "That costs $5.00 for one.")].
Proof. vm_compute. discriminate. Qed.

(** When the period arrives as a chunk of its own the amount is kept in one
    utterance. *)
Example money_period_alone :
  collate_response_async
    [Text (str "That costs $5"); Text (str "."); Text (str "00 for");
     Text (str " one.")]
    SENTENCE_ENDINGS false
  = [Utterance (str "That costs $5.00 for one.")].
Proof. vm_compute. reflexivity. Qed.

Example list_items :
  collate_response_async
    [Text (str "1."); Text (str " Buy milk" ++ [newline]);
     Text (str "2."); Text (str " Buy eggs" ++ [newline])]
    SENTENCE_ENDINGS false
  = [Utterance (str "1. Buy milk"); Utterance (str "2. Buy eggs")].
Proof. vm_compute. reflexivity. Qed.

Example plain_sentences :
  collate_response_async
    [Text (str "Hello"); Text (str " there."); Text (str " How are you?")]
    SENTENCE_ENDINGS false
  = [Utterance (str "Hello there."); Utterance (str "How are you?")].
Proof. vm_compute. reflexivity. Qed.

Example fragments_collected :
  collate_response_async
    [FunctionFragment (str "{a:"); Text (str "Hi."); FunctionFragment (str "1}")]
    SENTENCE_ENDINGS true
  = [Utterance (str "Hi."); FunctionCall (str "{a:1}")].
Proof. vm_compute. reflexivity. Qed.

(** C5, for the part the pattern is written for: the money test holds for
    every buffer that ends with a dollar sign, digits and a period, and it
    holds only for buffers that end with a dollar sign, digits and one more
    character; so it holds for ["$5."] and not for ["$5.0"], ["$5.00"] or
    ["$5"]. *)
Theorem ends_with_money_by_design :
  (forall buf, money_period_shape buf -> ends_with_money buf = true) /\
  (forall buf, ends_with_money buf = true -> money_shape buf) /\
  ends_with_money (str "$5.") = true /\
  ends_with_money (str "$5.0") = false /\
  ends_with_money (str "$5.00") = false /\
  ends_with_money (str "$5") = false.
Proof.
  split.
  - intros buf (pre & ds & tl & E & Hne & Hd & Htl).
    apply ends_with_money_shape. exists pre, ds, "."%char, tl.
    repeat split; try assumption. discriminate.
  - split; [intros buf H; now apply ends_with_money_shape|].
    repeat split; reflexivity.
Qed.

Lemma ends_with_money_by_design_witness :
  money_period_shape (str "It costs $5.") /\
  ends_with_money (str "It costs $5.") = true.
Proof.
  assert (H : money_period_shape (str "It costs $5.")).
  { exists (str "It costs "), ["5"%char], []. repeat split.
    - discriminate.
    - now left. }
  split; [exact H|].
  exact (proj1 ends_with_money_by_design (str "It costs $5.") H).
Defined.

(** C5 as stated fails: ["$5.0"] has the described shape and is not
    classified as ending with money. *)
Lemma described_money_shape_refuted :
  ~ (forall buf, ends_with_money buf = true <-> described_money_shape buf).
Proof.
  intros H. specialize (H (str "$5.0")).
  assert (E : ends_with_money (str "$5.0") = false) by reflexivity.
  rewrite E in H. destruct H as [_ H].
  assert (Hs : described_money_shape (str "$5.0")).
  { exists [], ["5"%char], "0"%char. repeat split. discriminate. }
  apply H in Hs. discriminate.
Qed.

(** C6: with an empty list of sentence endings the joined pattern is the
    empty pattern, which is found in every token, and a plain buffer is
    flushed at every token instead of being kept to the end. *)
Theorem empty_endings_split_every_token :
  (forall tok, re_findall (sentence_endings_pattern []) tok = true) /\
  collate_trace [Text (str "Hello"); Text (str " world")] [] false
  = ([[Utterance (str "Hello")]; [Utterance (str "world")]], []) /\
  collate_response_async [Text (str "Hello"); Text (str " world")] [] false
  = [Utterance (str "Hello"); Utterance (str "world")].
Proof.
  split; [exact empty_endings_always_found|].
  split; vm_compute; reflexivity.
Qed.

(** C7 as stated fails: one [Text] unit can yield two utterances. *)
Lemma one_text_two_utterances :
  ~ (forall gen sentence_endings get_functions,
       Forall (fun out => length out <= 1)
              (fst (collate_trace gen sentence_endings get_functions))).
Proof.
  intros H.
  specialize (H [Text (str "It costs $5."); Text (str " Ok.")]
                SENTENCE_ENDINGS false).
  vm_compute in H. inversion H as [|? ? _ H']. inversion H' as [|? ? Hle _].
  lia.
Qed.

(** C3: without a terminator the helper returns an empty sentence and the
    whole buffer, and with the only terminator at index 0 it returns
    [(None, None)]. *)
Theorem get_sentence_helper_defects :
  get_sentence_from_buffer (str "abc") = (Some [], Some (str "abc")) /\
  get_sentence_from_buffer (str ".abc") = (None, None).
Proof. split; reflexivity. Qed.

(** C4: without a terminator [find_last_punctuation] returns the integer
    -1, not [None]. *)
Theorem find_last_punctuation_minus_one :
  find_last_punctuation (str "abc") = Some (-1)%Z.
Proof. reflexivity. Qed.

(** C10: when the only terminator of the buffer is its first character,
    [get_sentence_from_buffer] returns [(None, None)]. *)
Theorem terminator_only_at_index_0 c rest :
  is_terminator c ->
  (forall x, In x rest -> ~ is_terminator x) ->
  get_sentence_from_buffer (c :: rest) = (None, None).
Proof.
  intros Hc Hrest. unfold get_sentence_from_buffer.
  rewrite (find_last_punctuation_last (c :: rest) 0 c eq_refl Hc).
  - reflexivity.
  - intros [|j] x Hlt Hj; [lia|]. simpl in Hj.
    apply nth_error_In in Hj. now apply Hrest.
Qed.

Lemma terminator_only_at_index_0_witness :
  is_terminator "."%char /\
  (forall x, In x (str "abc") -> ~ is_terminator x) /\
  get_sentence_from_buffer ("."%char :: str "abc") = (None, None).
Proof.
  assert (H1 : is_terminator "."%char) by (left; reflexivity).
  assert (H2 : forall x, In x (str "abc") -> ~ is_terminator x).
  { intros x Hx Ht. apply is_terminator_cases in Ht. simpl in Hx.
    destruct Hx as [<- | [<- | [<- | []]]];
      destruct Ht as [Ht | [Ht | [Ht | Ht]]]; discriminate. }
  split; [exact H1|]. split; [exact H2|].
  exact (terminator_only_at_index_0 "."%char (str "abc") H1 H2).
Defined.

End Examples.

(** ** Further properties: the patterns *)

Section Patterns.

Lemma empty_inv p q : matches Empty p q <-> q = p.
Proof.
  split.
  - intros H. now inversion H.
  - intros ->. constructor.
Qed.

Lemma or_inv r1 r2 p q :
  matches (Or r1 r2) p q <-> matches r1 p q \/ matches r2 p q.
Proof.
  split.
  - intros H. inversion H; subst; auto.
  - intros [H | H]; [now apply MOrL | now apply MOrR].
Qed.

Lemma bos_inv p q : matches Bos p q <-> q = p /\ fst p = 0.
Proof.
  split.
  - intros H. inversion H; subst. auto.
  - intros (-> & E). destruct p as [n t]. simpl in E. subst. constructor.
Qed.

Lemma oneof_inv cs p q :
  matches (OneOf cs) p q <->
  exists c t, snd p = c :: t /\ In c cs /\ q = (S (fst p), t).
Proof.
  split.
  - intros H. inversion H; subst. simpl. eauto.
  - intros (c & t & E & Hc & ->). destruct p as [n s]. simpl in *. subst.
    now constructor.
Qed.

(** An escaped string matches itself and nothing else. *)
Lemma escape_matches e : forall n t q,
  matches (escape e) (n, t) q <-> t = e ++ snd q /\ fst q = n + length e.
Proof.
  induction e as [|c e IH]; intros n t q.
  - simpl. rewrite empty_inv, Nat.add_0_r. destruct q as [m t']. simpl.
    split; [intros E; inversion E; auto | intros (-> & ->); reflexivity].
  - destruct e as [|c' e].
    + simpl. rewrite chr_inv. simpl. destruct q as [m t']. simpl. split.
      * intros (t0 & -> & E). inversion E; subst. split; [reflexivity | lia].
      * intros (-> & ->). exists t'. split; [reflexivity | f_equal; lia].
    + change (escape (c :: c' :: e)) with (Cat (Chr c) (escape (c' :: e))).
      rewrite cat_inv. split.
      * intros (q1 & H1 & H2). apply chr_inv in H1.
        destruct H1 as (t1 & E1 & ->). simpl in E1. subst t.
        apply IH in H2. destruct H2 as (-> & ->).
        split; [reflexivity | simpl; lia].
      * intros (-> & E). exists (S n, (c' :: e) ++ snd q). split.
        { apply chr_inv. simpl. eauto. }
        apply IH. split; [reflexivity | simpl in *; lia].
Qed.

Lemma join_alt_matches ps p q :
  matches (join_alt ps) p q <->
  (ps = [] /\ q = p) \/ exists r, In r ps /\ matches r p q.
Proof.
  induction ps as [|r ps IH].
  - simpl. rewrite empty_inv. split.
    + intros ->. now left.
    + intros [(_ & E) | (r & [] & _)]. exact E.
  - destruct ps as [|r' ps].
    + simpl. split.
      * intros H. right. exists r. auto.
      * intros [(E & _) | (r0 & [<- | []] & H)]; [discriminate | exact H].
    + change (join_alt (r :: r' :: ps)) with (Or r (join_alt (r' :: ps))).
      rewrite or_inv, IH. split.
      * intros [H | [(E & _) | (r0 & Hin & H)]]; [| discriminate |].
        -- right. exists r. split; [now left | exact H].
        -- right. exists r0. split; [now right | exact H].
      * intros [(E & _) | (r0 & [<- | Hin] & H)]; [discriminate | now left |].
        right. right. exists r0. auto.
Qed.

Lemma endings_pattern_found_iff sentence_endings tok :
  re_findall (sentence_endings_pattern sentence_endings) tok = true <->
  sentence_endings = [] \/
  exists e, In e sentence_endings /\ occurs_in e tok.
Proof.
  unfold sentence_endings_pattern, occurs_in. rewrite re_findall_iff. split.
  - intros (pre & suf & q & E & H). apply join_alt_matches in H.
    destruct H as [(Hnil & _) | (r & Hin & H)].
    + left. now destruct sentence_endings.
    + right. apply in_map_iff in Hin. destruct Hin as (e & <- & Hin).
      apply escape_matches in H. destruct H as (-> & _).
      exists e. split; [assumption|]. now exists pre, (snd q).
  - intros [-> | (e & Hin & pre & suf & ->)].
    + exists [], tok, (0, tok). split; [reflexivity|]. simpl. constructor.
    + exists pre, (e ++ suf), (length pre + length e, suf).
      split; [reflexivity|]. apply join_alt_matches. right.
      exists (escape e). split; [now apply in_map|].
      apply escape_matches. simpl. auto.
Qed.

(** With the default endings: found exactly when the token contains one of
    the four terminator characters. *)
Lemma default_pattern_found tok :
  re_findall (sentence_endings_pattern SENTENCE_ENDINGS) tok = true <->
  exists c, In c tok /\ is_terminator c.
Proof.
  rewrite endings_pattern_found_iff. split.
  - intros [E | (e & Hin & pre & suf & ->)]; [discriminate|].
    assert (He : exists c, e = [c]).
    { simpl in Hin. destruct Hin as [<- | [<- | [<- | [<- | []]]]]; eauto. }
    destruct He as (c & ->). exists c. split; [|exact Hin].
    apply in_or_app. right. now left.
  - intros (c & Hin & Hc). right. exists [c]. split; [exact Hc|].
    apply in_split in Hin. destruct Hin as (pre & suf & ->).
    now exists pre, suf.
Qed.

Lemma default_pattern_not_found tok :
  (forall c, In c tok -> ~ is_terminator c) ->
  re_findall (sentence_endings_pattern SENTENCE_ENDINGS) tok = false.
Proof.
  intros H. apply not_true_is_false. intros E.
  apply default_pattern_found in E. destruct E as (c & Hin & Hc).
  exact (H c Hin Hc).
Qed.

Lemma newline_not_found tok :
  ~ In newline tok -> re_findall list_item_ending_pattern tok = false.
Proof.
  intros H. rewrite re_findall_newline. apply not_true_is_false. intros E.
  apply existsb_exists in E. destruct E as (c & Hin & Hc).
  apply Ascii.eqb_eq in Hc. now subst.
Qed.

Lemma possible_list_item_iff buf :
  possible_list_item buf = true <-> list_item_shape buf.
Proof.
  unfold possible_list_item, re_match, list_item_pattern, list_item_shape.
  rewrite matches_at_iff. split.
  - intros (q & H). apply cat_inv in H. destruct H as (q1 & H1 & H).
    apply bos_inv in H1. destruct H1 as (-> & _).
    apply cat_inv in H. destruct H as (q2 & H2 & H).
    apply plus_digit_run in H2. destruct H2 as (ds & Hne & Hd & E & _).
    apply oneof_inv in H. destruct H as (c & t & Ec & Hc & _).
    exists ds, c, t. rewrite E, Ec. repeat split; try assumption.
    simpl in Hc. destruct Hc as [<- | [<- | []]]; auto.
  - intros (ds & c & rest & -> & Hne & Hd & Hc).
    exists (S (length ds), rest).
    apply cat_inv. exists (0, ds ++ c :: rest). split.
    { apply bos_inv. auto. }
    apply cat_inv. exists (length ds, c :: rest). split.
    { apply plus_digit_run. exists ds. now repeat split. }
    apply oneof_inv. exists c, rest. simpl. repeat split.
    destruct Hc as [-> | ->]; auto.
Qed.

Lemma possible_list_item_app buf more :
  possible_list_item buf = true -> possible_list_item (buf ++ more) = true.
Proof.
  intros H. apply possible_list_item_iff in H.
  destruct H as (ds & c & rest & -> & Hrest).
  apply possible_list_item_iff. exists ds, c, (rest ++ more).
  now rewrite <- app_assoc.
Qed.

Lemma no_dollar_no_money buf :
  ~ In "$"%char buf -> ends_with_money buf = false.
Proof.
  intros H. apply not_true_is_false. intros E.
  apply ends_with_money_shape in E.
  destruct E as (pre & ds & c & tl & -> & _).
  apply H, in_or_app. right. now left.
Qed.

(** X1: the pattern built from the sentence endings is found in a token
    exactly when one of the endings occurs in the token as a substring, the
    characters of an ending standing for themselves; with no ending at all
    it is found in every token. *)
Theorem endings_pattern_found sentence_endings tok :
  re_findall (sentence_endings_pattern sentence_endings) tok = true <->
  sentence_endings = [] \/
  exists e, In e sentence_endings /\ occurs_in e tok.
Proof. apply endings_pattern_found_iff. Qed.

(** X2: a buffer is a possible list item exactly when it starts with one or
    more digits followed by a space or a period. *)
Theorem possible_list_item_shape buf :
  possible_list_item buf = true <-> list_item_shape buf.
Proof. apply possible_list_item_iff. Qed.

End Patterns.

(** ** Further properties: the collator loop *)

Section MoreCollator.

Variable pattern : regex.

Lemma step_empty_unit st tok :
  nonempty_unit tok = false -> step pattern st tok = (st, []).
Proof.
  destruct tok as [s | x]; simpl; intros H.
  - now rewrite H.
  - destruct x; [|discriminate]. rewrite app_nil_r. now destruct st.
Qed.

(** The text part of a step depends on the buffer and the money flag only,
    and leaves the function buffer alone. *)
Lemma text_step_congr st st2 tok :
  buffer st = buffer st2 ->
  prev_ends_with_money st = prev_ends_with_money st2 ->
  buffer (fst (text_step pattern st tok))
    = buffer (fst (text_step pattern st2 tok)) /\
  prev_ends_with_money (fst (text_step pattern st tok))
    = prev_ends_with_money (fst (text_step pattern st2 tok)) /\
  snd (text_step pattern st tok) = snd (text_step pattern st2 tok) /\
  function_buffer (fst (text_step pattern st2 tok)) = function_buffer st2.
Proof.
  intros Eb Ep. unfold text_step. rewrite Eb, Ep.
  destruct (prev_ends_with_money st2 && startswith tok [space]);
    destruct (re_findall _ tok);
    try destruct (negb _); simpl; auto.
Qed.

Lemma loop_only_text gen : forall st st2,
  buffer st = buffer st2 ->
  prev_ends_with_money st = prev_ends_with_money st2 ->
  buffer (fst (loop pattern st gen))
    = buffer (fst (loop pattern st2 (filter is_text gen))) /\
  List.concat (snd (loop pattern st gen))
    = List.concat (snd (loop pattern st2 (filter is_text gen))) /\
  function_buffer (fst (loop pattern st2 (filter is_text gen)))
    = function_buffer st2.
Proof.
  induction gen as [|tok gen IH]; intros st st2 Eb Ep; [simpl; auto|].
  destruct tok as [s | x].
  - cbn [filter is_text loop step].
    destruct (truthy s).
    + destruct (text_step_congr st st2 s Eb Ep) as (E1 & E2 & E3 & E4).
      destruct (text_step pattern st s) as [st1 out1].
      destruct (text_step pattern st2 s) as [st1' out1'].
      simpl in E1, E2, E3, E4. subst out1'.
      specialize (IH st1 st1' E1 E2).
      destruct (loop pattern st1 gen) as [sa oa].
      destruct (loop pattern st1' (filter is_text gen)) as [sb ob].
      simpl in *. destruct IH as (I1 & I2 & I3).
      repeat split; congruence.
    + specialize (IH st st2 Eb Ep).
      destruct (loop pattern st gen) as [sa oa].
      destruct (loop pattern st2 (filter is_text gen)) as [sb ob].
      simpl in *. exact IH.
  - cbn [filter is_text loop step].
    specialize (IH (mkLocals (buffer st) (function_buffer st ++ x)
                             (prev_ends_with_money st)) st2 Eb Ep).
    destruct (loop pattern _ gen) as [sa oa].
    destruct (loop pattern st2 (filter is_text gen)) as [sb ob].
    simpl in *. exact IH.
Qed.

Lemma loop_nonempty_units gen : forall st,
  fst (loop pattern st gen)
    = fst (loop pattern st (filter nonempty_unit gen)) /\
  List.concat (snd (loop pattern st gen))
    = List.concat (snd (loop pattern st (filter nonempty_unit gen))).
Proof.
  induction gen as [|tok gen IH]; intros st; [simpl; auto|].
  cbn [filter]. destruct (nonempty_unit tok) eqn:Hne.
  - cbn [loop]. destruct (step pattern st tok) as [st1 out].
    specialize (IH st1).
    destruct (loop pattern st1 gen) as [sa oa].
    destruct (loop pattern st1 (filter nonempty_unit gen)) as [sb ob].
    simpl in *. destruct IH as (-> & ->). auto.
  - cbn [loop]. rewrite (step_empty_unit st tok Hne).
    specialize (IH st).
    destruct (loop pattern st gen) as [sa oa].
    destruct (loop pattern st (filter nonempty_unit gen)) as [sb ob].
    simpl in *. exact IH.
Qed.

(** A run in which the boundary test never succeeds and no dollar sign
    occurs keeps everything in the buffer. *)
Lemma loop_no_boundary gen : forall st,
  prev_ends_with_money st = false ->
  ~ In "$"%char (buffer st ++ texts gen) ->
  (forall pre tok post,
     gen = pre ++ Text tok :: post -> tok <> [] ->
     re_findall (if possible_list_item (buffer st ++ texts pre ++ tok)
                 then list_item_ending_pattern else pattern) tok = false) ->
  loop pattern st gen =
    (mkLocals (buffer st ++ texts gen) (function_buffer st ++ fragments gen)
              false, silent gen).
Proof.
  induction gen as [|tok gen IH]; intros st Hprev Hd Hnf.
  - simpl. rewrite !app_nil_r. destruct st; simpl in *. now subst.
  - cbn [loop]. destruct tok as [s | x].
    + destruct s as [|c s].
      * cbn [step truthy]. rewrite (IH st Hprev); [reflexivity | exact Hd |].
        intros pre tok post E Hne. apply (Hnf (Text [] :: pre) tok post);
          [now rewrite E | exact Hne].
      * cbn [step truthy]. unfold text_step. rewrite Hprev. cbn [andb app].
        pose proof (Hnf [] (c :: s) gen eq_refl) as H0.
        cbn [texts flat_map app] in H0. rewrite H0 by discriminate.
        assert (Hm : ends_with_money (buffer st ++ c :: s) = false).
        { apply no_dollar_no_money. intros Hin. apply Hd.
          unfold texts. cbn [flat_map text_of]. rewrite app_assoc.
          apply in_or_app. now left. }
        rewrite Hm.
        rewrite (IH (mkLocals (buffer st ++ c :: s) (function_buffer st)
                              false)); cbn [buffer function_buffer
                                            prev_ends_with_money].
        -- unfold texts, fragments, silent. cbn [flat_map text_of fragment_of map app].
           now rewrite <- !app_assoc.
        -- reflexivity.
        -- unfold texts in *. cbn [flat_map text_of] in Hd.
           now rewrite <- app_assoc.
        -- intros pre tok post E Hne. rewrite <- app_assoc.
           pose proof (Hnf (Text (c :: s) :: pre) tok post) as H1.
           rewrite E in H1. specialize (H1 eq_refl Hne).
           unfold texts in H1. cbn [flat_map text_of] in H1.
           rewrite <- app_assoc in H1. exact H1.
    + cbn [step].
      rewrite (IH (mkLocals (buffer st) (function_buffer st ++ x)
                            (prev_ends_with_money st)));
        cbn [buffer function_buffer prev_ends_with_money].
      * unfold texts, fragments, silent.
        cbn [flat_map text_of fragment_of map app].
        now rewrite <- app_assoc.
      * exact Hprev.
      * exact Hd.
      * intros pre tok post E Hne.
        apply (Hnf (FunctionFragment x :: pre) tok post);
          [now rewrite E | exact Hne].
Qed.

(** One step in terms of whole token strings: [pending] are the strings
    that make up the buffer, [closed] the groups the step yields. *)
Lemma text_step_groups st tok st' out pending :
  flag_sound st ->
  List.concat pending = buffer st ->
  text_step pattern st tok = (st', out) ->
  exists closed pending',
    List.concat (closed ++ [pending']) = pending ++ [tok] /\
    List.concat pending' = buffer st' /\
    out = emitted (map (@List.concat ascii) closed) /\
    flag_sound st'.
Proof.
  intros Hinv Hp. unfold text_step.
  destruct (prev_ends_with_money st && startswith tok [space]) eqn:Hflush.
  - apply andb_true_iff in Hflush. destruct Hflush as [Hprev _].
    assert (Hb : truthy (strip (buffer st)) = true)
      by (apply truthy_true, ends_with_money_strip, Hinv, Hprev).
    simpl app.
    destruct (re_findall _ tok);
      [destruct (ends_with_money tok) eqn:Hm; simpl negb; cbv iota|];
      intros E; inversion E; subst; clear E.
    + exists [pending], [tok]. simpl. rewrite !app_nil_r, Hp, emitted_one, Hb.
      repeat split. unfold flag_sound. simpl. congruence.
    + exists [pending; [tok]], []. simpl. rewrite !app_nil_r, Hp.
      change [buffer st; tok] with ([buffer st] ++ [tok]).
      rewrite emitted_app, !emitted_one, Hb.
      repeat split. unfold flag_sound. simpl. congruence.
    + exists [pending], [tok]. simpl. rewrite !app_nil_r, Hp, emitted_one, Hb.
      repeat split. unfold flag_sound. simpl. congruence.
  - destruct (re_findall _ tok);
      [destruct (ends_with_money (buffer st ++ tok)) eqn:Hm; simpl negb;
       cbv iota|];
      intros E; inversion E; subst; clear E.
    + exists [], (pending ++ [tok]). simpl.
      rewrite concat_app. simpl. rewrite !app_nil_r, Hp.
      repeat split. unfold flag_sound. simpl. congruence.
    + exists [pending ++ [tok]], []. simpl.
      rewrite concat_app. simpl. rewrite !app_nil_r, Hp, emitted_one.
      repeat split. unfold flag_sound. simpl. congruence.
    + exists [], (pending ++ [tok]). simpl.
      rewrite concat_app. simpl. rewrite !app_nil_r, Hp.
      repeat split. unfold flag_sound. simpl. congruence.
Qed.

Lemma loop_groups gen : forall st pending,
  flag_sound st ->
  List.concat pending = buffer st ->
  exists closed pending',
    List.concat (closed ++ [pending']) = pending ++ text_units gen /\
    List.concat pending' = buffer (fst (loop pattern st gen)) /\
    List.concat (snd (loop pattern st gen))
      = emitted (map (@List.concat ascii) closed).
Proof.
  induction gen as [|tok gen IH]; intros st pending Hinv Hp.
  - exists [], pending. simpl. now rewrite !app_nil_r.
  - cbn [loop].
    assert (Hs : exists closed1 pending1 st1 out1,
               step pattern st tok = (st1, out1) /\
               List.concat (closed1 ++ [pending1])
                 = pending ++ text_units [tok] /\
               List.concat pending1 = buffer st1 /\
               out1 = emitted (map (@List.concat ascii) closed1) /\
               flag_sound st1).
    { destruct tok as [s | x]; cbn [step].
      - destruct s as [|c s]; cbn [truthy].
        + exists [], (pending ++ [[]]), st, []. simpl.
          rewrite concat_app. simpl. now rewrite !app_nil_r.
        + destruct (text_step pattern st (c :: s)) as [st1 out1] eqn:Es.
          destruct (text_step_groups _ _ _ _ _ Hinv Hp Es)
            as (closed1 & pending1 & H1 & H2 & H3 & H4).
          exists closed1, pending1, st1, out1. simpl. now repeat split.
      - exists [], pending,
               (mkLocals (buffer st) (function_buffer st ++ x)
                         (prev_ends_with_money st)), [].
        simpl. rewrite !app_nil_r. repeat split; assumption. }
    destruct Hs as (closed1 & pending1 & st1 & out1 & Es & H1 & H2 & -> & H4).
    rewrite Es.
    destruct (IH st1 pending1 H4 H2) as (closed2 & pending2 & G1 & G2 & G3).
    destruct (loop pattern st1 gen) as [st2 outs]. simpl in *.
    exists (closed1 ++ closed2), pending2. split; [|split].
    + rewrite <- app_assoc, concat_app, G1.
      rewrite concat_app in H1. simpl in H1. rewrite app_nil_r in H1.
      unfold text_units in *. cbn [flat_map].
      rewrite app_assoc, H1, <- !app_assoc. reflexivity.
    + exact G2.
    + now rewrite G3, map_app, emitted_app.
Qed.

End MoreCollator.

Lemma collate_unfold gen sentence_endings get_functions :
  collate_response_async gen sentence_endings get_functions =
  List.concat
    (snd (loop (sentence_endings_pattern sentence_endings) initial gen))
  ++ finish get_functions
       (fst (loop (sentence_endings_pattern sentence_endings) initial gen)).
Proof.
  unfold collate_response_async, collate_trace.
  now destruct (loop (sentence_endings_pattern sentence_endings) initial gen).
Qed.

Lemma collate_trace_unfold gen sentence_endings get_functions :
  collate_trace gen sentence_endings get_functions =
  (snd (loop (sentence_endings_pattern sentence_endings) initial gen),
   finish get_functions
     (fst (loop (sentence_endings_pattern sentence_endings) initial gen))).
Proof.
  unfold collate_trace.
  now destruct (loop (sentence_endings_pattern sentence_endings) initial gen).
Qed.

Lemma loop_function_buffer pattern gen st :
  flag_sound st ->
  function_buffer (fst (loop pattern st gen))
    = function_buffer st ++ fragments gen.
Proof.
  intros Hinv. destruct (loop pattern st gen) as [st' outs] eqn:El.
  now destruct (loop_spec _ _ _ _ _ Hinv El) as (_ & Hf & _).
Qed.

Lemma texts_app a b : texts (a ++ b) = texts a ++ texts b.
Proof. apply flat_map_app. Qed.

(** ** Further properties of the collator *)

Section MoreCollatorProperties.

Variables (sentence_endings : list pystr) (get_functions : bool).

(** X3: the collator never cuts inside a [Text] unit.  The [Text] units
    fall into consecutive groups of whole units, and the utterances are, in
    order, the groups joined and stripped, a group that strips to nothing
    giving no utterance. *)
Theorem tokens_never_split gen :
  exists groups : list (list pystr),
    List.concat groups = text_units gen /\
    utterances (collate_response_async gen sentence_endings get_functions)
    = filter truthy (map (fun g => strip (List.concat g)) groups).
Proof.
  destruct (loop_groups (sentence_endings_pattern sentence_endings) gen
                        initial [] flag_sound_initial eq_refl)
    as (closed & pending & H1 & H2 & H3).
  exists (closed ++ [pending]). split; [exact H1|].
  rewrite collate_unfold, H3, finish_spec, <- H2, app_assoc, <- emitted_app.
  rewrite utterances_app, utterances_emitted.
  change [List.concat pending] with (map (@List.concat ascii) [pending]).
  rewrite <- map_app, map_map.
  destruct (truthy _ && get_functions); simpl; now rewrite app_nil_r.
Qed.

(** X4: function fragments never change the text output.  A run yields
    what the run on the [Text] units alone yields, followed by the
    function call. *)
Theorem fragments_do_not_change_text gen :
  collate_response_async gen sentence_endings get_functions =
  collate_response_async (filter is_text gen) sentence_endings false
  ++ function_call gen get_functions.
Proof.
  rewrite !collate_unfold, !finish_spec.
  destruct (loop_only_text (sentence_endings_pattern sentence_endings) gen
                           initial initial eq_refl eq_refl) as (E1 & E2 & E3).
  rewrite E2, E1, loop_function_buffer by exact flag_sound_initial.
  rewrite andb_false_r, app_nil_r, <- app_assoc. reflexivity.
Qed.

(** X5: units without text are ignored: leaving out every empty string and
    every fragment with empty text does not change what is yielded. *)
Theorem empty_units_ignored gen :
  collate_response_async gen sentence_endings get_functions =
  collate_response_async (filter nonempty_unit gen) sentence_endings
                         get_functions.
Proof.
  rewrite !collate_unfold.
  destruct (loop_nonempty_units (sentence_endings_pattern sentence_endings)
                                gen initial) as (E1 & E2).
  now rewrite E1, E2.
Qed.

(** X6: an input of empty strings and empty fragments only yields
    nothing. *)
Theorem only_empty_units_yield_nothing gen :
  Forall (fun tok => nonempty_unit tok = false) gen ->
  collate_response_async gen sentence_endings get_functions = [].
Proof.
  intros H.
  assert (Hf : filter nonempty_unit gen = []).
  { induction H as [|tok l Htok _ IH]; [reflexivity|].
    simpl. now rewrite Htok. }
  rewrite collate_unfold.
  destruct (loop_nonempty_units (sentence_endings_pattern sentence_endings)
                                gen initial) as (E1 & E2).
  rewrite E1, E2, Hf. reflexivity.
Qed.

(** X8: a single [Text] unit yields its stripped text as one utterance, or
    nothing when it strips to nothing, whatever the sentence endings. *)
Theorem single_text_unit t :
  collate_response_async [Text t] sentence_endings get_functions
  = emitted [t].
Proof.
  rewrite collate_unfold. cbn [loop step].
  destruct t as [|c t]; [reflexivity|]. cbn [truthy].
  unfold text_step. cbn [initial prev_ends_with_money buffer andb app
                         function_buffer].
  rewrite emitted_one.
  destruct (re_findall _ (c :: t));
    [destruct (ends_with_money (c :: t)); cbn [negb]|];
    cbn [fst snd List.concat app]; unfold finish;
    cbn [buffer function_buffer truthy andb app];
    destruct (truthy (strip (c :: t))); reflexivity.
Qed.

End MoreCollatorProperties.

(** X9: with the default endings, text that contains none of the four
    terminators and no dollar sign is yielded only after the input has
    ended, as one utterance. *)
Theorem no_terminator_no_early_yield gen get_functions :
  (forall c, In c (texts gen) -> ~ is_terminator c /\ c <> "$"%char) ->
  collate_trace gen SENTENCE_ENDINGS get_functions =
    (silent gen, emitted [texts gen] ++ function_call gen get_functions).
Proof.
  intros H. rewrite collate_trace_unfold.
  rewrite (loop_no_boundary (sentence_endings_pattern SENTENCE_ENDINGS) gen
                            initial eq_refl).
  - cbn [fst snd]. now rewrite finish_spec.
  - simpl. intros Hin. now destruct (H _ Hin).
  - intros pre tok post E _.
    assert (Htok : forall c, In c tok -> ~ is_terminator c).
    { intros c Hin. apply H. rewrite E, texts_app. apply in_or_app. right.
      unfold texts. cbn [flat_map text_of]. apply in_or_app. now left. }
    destruct (possible_list_item _).
    + apply newline_not_found. intros Hin. apply (Htok _ Hin).
      apply is_terminator_cases. auto.
    + now apply default_pattern_not_found.
Qed.

Lemma no_terminator_no_early_yield_witness :
  (forall c, In c (texts [Text (str "Hello"); Text (str " world")]) ->
             ~ is_terminator c /\ c <> "$"%char) /\
  collate_trace [Text (str "Hello"); Text (str " world")]
                SENTENCE_ENDINGS false
  = ([[]; []], [Utterance (str "Hello world")]).
Proof.
  assert (H : forall c,
             In c (texts [Text (str "Hello"); Text (str " world")]) ->
             ~ is_terminator c /\ c <> "$"%char).
  { intros c Hin. rewrite is_terminator_cases. vm_compute in Hin.
    repeat (destruct Hin as [<- | Hin];
            [split; [intros [E | [E | [E | E]]]; discriminate | discriminate]
            |]).
    contradiction. }
  split; [exact H|].
  exact (no_terminator_no_early_yield
           [Text (str "Hello"); Text (str " world")] false H).
Defined.

(** X10: a numbered list item is held until its newline.  When the first
    unit is a possible list item and the text has no newline and no dollar
    sign, nothing is yielded before the input ends, whatever the sentence
    endings and however many periods follow. *)
Theorem list_item_held_until_newline t0 rest sentence_endings get_functions :
  possible_list_item t0 = true ->
  ~ In newline (texts (Text t0 :: rest)) ->
  ~ In "$"%char (texts (Text t0 :: rest)) ->
  collate_trace (Text t0 :: rest) sentence_endings get_functions =
    (silent (Text t0 :: rest),
     emitted [texts (Text t0 :: rest)]
     ++ function_call (Text t0 :: rest) get_functions).
Proof.
  intros Hpli Hnl Hd. rewrite collate_trace_unfold.
  rewrite (loop_no_boundary (sentence_endings_pattern sentence_endings)
                            (Text t0 :: rest) initial eq_refl).
  - cbn [fst snd]. now rewrite finish_spec.
  - exact Hd.
  - intros pre tok post E _.
    assert (Htok : ~ In newline tok).
    { intros Hin. apply Hnl. rewrite E, texts_app. apply in_or_app. right.
      unfold texts. cbn [flat_map text_of]. apply in_or_app. now left. }
    assert (Hp : possible_list_item (buffer initial ++ texts pre ++ tok)
                 = true).
    { destruct pre as [|u pre]; simpl in E; inversion E; subst.
      - exact Hpli.
      - unfold texts. cbn [flat_map text_of buffer initial app].
        rewrite <- app_assoc. now apply possible_list_item_app. }
    rewrite Hp. now apply newline_not_found.
Qed.

Lemma list_item_held_until_newline_witness :
  possible_list_item (str "1.") = true /\
  ~ In newline (texts [Text (str "1."); Text (str " Buy milk. Now.")]) /\
  ~ In "$"%char (texts [Text (str "1."); Text (str " Buy milk. Now.")]) /\
  collate_trace [Text (str "1."); Text (str " Buy milk. Now.")]
                SENTENCE_ENDINGS false
  = ([[]; []], [Utterance (str "1. Buy milk. Now.")]).
Proof.
  assert (H1 : ~ In newline
                 (texts [Text (str "1."); Text (str " Buy milk. Now.")])).
  { vm_compute. intros Hin.
    repeat (destruct Hin as [Hin | Hin]; [discriminate|]). exact Hin. }
  assert (H2 : ~ In "$"%char
                 (texts [Text (str "1."); Text (str " Buy milk. Now.")])).
  { vm_compute. intros Hin.
    repeat (destruct Hin as [Hin | Hin]; [discriminate|]). exact Hin. }
  split; [reflexivity|]. split; [exact H1|]. split; [exact H2|].
  exact (list_item_held_until_newline
           (str "1.") [Text (str " Buy milk. Now.")] SENTENCE_ENDINGS false
           eq_refl H1 H2).
Defined.

Lemma only_empty_units_yield_nothing_witness :
  Forall (fun tok => nonempty_unit tok = false)
         [Text []; FunctionFragment []; Text []] /\
  collate_response_async [Text []; FunctionFragment []; Text []]
                         SENTENCE_ENDINGS true = [].
Proof.
  assert (H : Forall (fun tok => nonempty_unit tok = false)
                     [Text []; FunctionFragment []; Text []])
    by (repeat constructor).
  split; [exact H|].
  exact (only_empty_units_yield_nothing SENTENCE_ENDINGS true _ H).
Defined.

(** ** Further properties of the buffer helpers *)

Section MoreHelpers.

Local Open Scope Z_scope.

Lemma is_terminator_dec c : {is_terminator c} + {~ is_terminator c}.
Proof.
  unfold is_terminator. apply in_dec, list_eq_dec, ascii_dec.
Qed.

(** Either no terminator occurs, or there is a last one. *)
Lemma last_terminator buf :
  (forall x, In x buf -> ~ is_terminator x) \/
  (exists k c, nth_error buf k = Some c /\ is_terminator c /\
               forall j x, (k < j)%nat -> nth_error buf j = Some x ->
                           ~ is_terminator x).
Proof.
  induction buf as [|x t IH].
  - left. intros x [].
  - destruct IH as [Hn | (k & c & Hk & Hc & Hlast)].
    + destruct (is_terminator_dec x) as [Hx | Hx].
      * right. exists 0%nat, x. repeat split; [assumption|].
        intros [|j] y Hlt Hj; [lia|]. simpl in Hj.
        apply nth_error_In in Hj. now apply Hn.
      * left. intros y [<- | Hy]; [assumption | now apply Hn].
    + right. exists (S k), c. repeat split; [assumption | assumption|].
      intros [|j] y Hlt Hj; [lia|]. simpl in Hj.
      apply (Hlast j y); [lia | assumption].
Qed.

Lemma firstn_S_nth (l : pystr) : forall n c,
  nth_error l n = Some c -> firstn (S n) l = firstn n l ++ [c].
Proof.
  induction l as [|x l IH]; intros [|n] c H; simpl in *; try discriminate.
  - now inversion H.
  - f_equal. now apply IH.
Qed.

(** X11: [find_last_punctuation] always returns an integer: -1 when the
    buffer has none of the four terminators, and otherwise the index of
    the last character of the buffer that is a terminator. *)
Theorem find_last_punctuation_spec buf :
  exists z,
    find_last_punctuation buf = Some z /\
    ((z = -1 /\ forall x, In x buf -> ~ is_terminator x) \/
     (exists k c,
        z = Z.of_nat k /\ nth_error buf k = Some c /\ is_terminator c /\
        forall j x, (k < j)%nat -> nth_error buf j = Some x ->
                    ~ is_terminator x)).
Proof.
  destruct (last_terminator buf) as [Hn | (k & c & Hk & Hc & Hlast)].
  - exists (-1). split; [now apply find_last_punctuation_absent|]. now left.
  - exists (Z.of_nat k).
    split; [now apply (find_last_punctuation_last buf k c)|].
    right. now exists k, c.
Qed.

(** X12: when [get_sentence_from_buffer] returns strings, they are the
    buffer cut in two: joined they give the buffer back, the remainder
    has no terminator, and the sentence is empty (no terminator at all)
    or ends with one. *)
Theorem get_sentence_round_trip buf a b :
  get_sentence_from_buffer buf = (Some a, Some b) ->
  a ++ b = buf /\
  (forall x, In x b -> ~ is_terminator x) /\
  (a = [] \/ exists a' c, a = a' ++ [c] /\ is_terminator c).
Proof.
  intros H.
  destruct (last_terminator buf) as [Hn | (k & c & Hk & Hc & Hlast)].
  - rewrite (get_sentence_no_terminator buf Hn) in H. inversion H; subst.
    simpl. auto.
  - destruct k as [|k].
    + destruct buf as [|x rest]; [discriminate|]. simpl in Hk.
      inversion Hk; subst.
      unfold get_sentence_from_buffer in H.
      rewrite (find_last_punctuation_last (c :: rest) 0 c eq_refl Hc Hlast)
        in H.
      discriminate.
    + pose proof (get_sentence_after_last buf k c Hk Hc Hlast) as E.
      remember (S (S k)) as n eqn:En. rewrite E in H.
      injection H as <- <-. split; [apply firstn_skipn|]. split.
      * intros x Hx. apply In_nth_error in Hx. destruct Hx as (i & Hi).
        rewrite nth_error_skipn in Hi.
        apply (Hlast (n + i)%nat x); [lia | assumption].
      * right. exists (firstn (S k) buf), c. subst n.
        split; [now apply firstn_S_nth | assumption].
Qed.

Lemma get_sentence_round_trip_witness :
  get_sentence_from_buffer (str "Hi. How are") = (Some (str "Hi."),
                                                  Some (str " How are")) /\
  str "Hi." ++ str " How are" = str "Hi. How are".
Proof.
  assert (H : get_sentence_from_buffer (str "Hi. How are")
              = (Some (str "Hi."), Some (str " How are"))) by reflexivity.
  split; [exact H|].
  exact (proj1 (get_sentence_round_trip _ _ _ H)).
Defined.

(** X13: when the last terminator of the buffer is at an index other than
    0, [get_sentence_from_buffer] returns the buffer up to and including
    it, and the rest. *)
Theorem get_sentence_splits_after_last buf k c :
  nth_error buf (S k) = Some c -> is_terminator c ->
  (forall j x, (S k < j)%nat -> nth_error buf j = Some x ->
               ~ is_terminator x) ->
  get_sentence_from_buffer buf =
    (Some (firstn (S (S k)) buf), Some (skipn (S (S k)) buf)).
Proof. apply get_sentence_after_last. Qed.

Lemma get_sentence_splits_after_last_witness :
  nth_error (str "a.b") 1 = Some "."%char /\
  is_terminator "."%char /\
  (forall j x, (1 < j)%nat -> nth_error (str "a.b") j = Some x ->
               ~ is_terminator x) /\
  get_sentence_from_buffer (str "a.b") = (Some (str "a."), Some (str "b")).
Proof.
  assert (H1 : is_terminator "."%char) by (left; reflexivity).
  assert (H2 : forall j x, (1 < j)%nat ->
                 nth_error (str "a.b") j = Some x -> ~ is_terminator x).
  { intros [|[|[|j]]] x Hlt Hj; try lia.
    - simpl in Hj. inversion Hj; subst. rewrite is_terminator_cases.
      intros [E | [E | [E | E]]]; discriminate.
    - simpl in Hj. destruct j; discriminate. }
  split; [reflexivity|]. split; [exact H1|]. split; [exact H2|].
  exact (get_sentence_splits_after_last (str "a.b") 0 "."%char
                                        eq_refl H1 H2).
Defined.

End MoreHelpers.

(** ** Dictionaries *)

Section DictFacts.

Lemma str_eqb_eq a : forall b, str_eqb a b = true <-> a = b.
Proof.
  induction a as [|x a IH]; intros [|y b]; simpl; split; try congruence.
  - intros H. apply andb_true_iff in H. destruct H as [Hx Hab].
    apply Ascii.eqb_eq in Hx. apply IH in Hab. congruence.
  - intros H. inversion H; subst. rewrite Ascii.eqb_refl. simpl.
    now apply IH.
Qed.

Lemma str_eqb_refl a : str_eqb a a = true.
Proof. now apply str_eqb_eq. Qed.

Lemma str_eqb_neq a b : a <> b -> str_eqb a b = false.
Proof.
  intros H. apply not_true_is_false. intros E. now apply str_eqb_eq in E.
Qed.

Lemma dict_get_set_same d k v : dict_get (dict_set d k v) k = Some v.
Proof.
  induction d as [|[k' v'] d IH]; simpl.
  - now rewrite str_eqb_refl.
  - destruct (str_eqb k' k) eqn:E; simpl; now rewrite E.
Qed.

Lemma dict_get_set_other d k v k' :
  k' <> k -> dict_get (dict_set d k v) k' = dict_get d k'.
Proof.
  intros Hne. induction d as [|[k0 v0] d IH]; simpl.
  - rewrite str_eqb_neq; [reflexivity | congruence].
  - destruct (str_eqb k0 k) eqn:E; simpl; [|now rewrite IH].
    apply str_eqb_eq in E. subst. rewrite str_eqb_neq; congruence.
Qed.

Lemma dict_set_set d k v v' :
  dict_set (dict_set d k v) k v' = dict_set d k v'.
Proof.
  induction d as [|[k0 v0] d IH]; simpl.
  - now rewrite str_eqb_refl.
  - destruct (str_eqb k0 k) eqn:E; simpl; rewrite E; [reflexivity|].
    now rewrite IH.
Qed.

Lemma dict_get_in_keys d k v : dict_get d k = Some v -> In k (map fst d).
Proof.
  induction d as [|[k0 v0] d IH]; simpl; [discriminate|].
  destruct (str_eqb k0 k) eqn:E.
  - apply str_eqb_eq in E. now left.
  - intros H. right. now apply IH.
Qed.

Lemma dict_get_not_in_keys d k : ~ In k (map fst d) -> dict_get d k = None.
Proof.
  intros H. destruct (dict_get d k) eqn:E; [|reflexivity].
  apply dict_get_in_keys in E. contradiction.
Qed.

Lemma dict_pop_absent d k : dict_get d k = None -> dict_pop d k = d.
Proof.
  induction d as [|[k0 v0] d IH]; simpl; [reflexivity|].
  destruct (str_eqb k0 k); [discriminate|]. intros H. now rewrite IH.
Qed.

Lemma dict_pop_set_absent d k v :
  dict_get d k = None -> dict_pop (dict_set d k v) k = d.
Proof.
  induction d as [|[k0 v0] d IH]; simpl.
  - now rewrite str_eqb_refl.
  - destruct (str_eqb k0 k) eqn:E; [discriminate|]. intros H.
    simpl. rewrite E. now rewrite IH.
Qed.

Lemma dict_pop_set d k v : dict_pop (dict_set d k v) k = dict_pop d k.
Proof.
  induction d as [|[k0 v0] d IH]; simpl.
  - now rewrite str_eqb_refl.
  - destruct (str_eqb k0 k) eqn:E; simpl; rewrite E; [reflexivity|].
    now rewrite IH.
Qed.

Lemma dict_pop_keys d k x : In x (map fst (dict_pop d k)) -> In x (map fst d).
Proof.
  induction d as [|[k0 v0] d IH]; simpl; [tauto|].
  destruct (str_eqb k0 k); simpl; intuition.
Qed.

Lemma dict_get_pop_same d k :
  dict_ok d -> dict_get (dict_pop d k) k = None.
Proof.
  unfold dict_ok. induction d as [|[k0 v0] d IH]; simpl; intros Hok;
    [reflexivity|].
  inversion Hok as [|? ? Hnin Hok']; subst.
  destruct (str_eqb k0 k) eqn:E.
  - apply str_eqb_eq in E. subst. now apply dict_get_not_in_keys.
  - simpl. rewrite E. now apply IH.
Qed.

Lemma dict_get_pop_other d k k' :
  k' <> k -> dict_get (dict_pop d k) k' = dict_get d k'.
Proof.
  intros Hne. induction d as [|[k0 v0] d IH]; simpl; [reflexivity|].
  destruct (str_eqb k0 k) eqn:E; simpl.
  - apply str_eqb_eq in E. subst. rewrite str_eqb_neq; congruence.
  - now rewrite IH.
Qed.

End DictFacts.

(** ** Chat messages from a transcript *)

Section ChatFacts.

Variable Sender : Type.
Variable is_bot : Sender -> bool.

Lemma fold_appended (logs : list (event_log Sender)) : forall msgs,
  fold_left (fun acc event => acc ++ appended is_bot event) logs msgs
  = msgs ++ flat_map (appended is_bot) logs.
Proof.
  induction logs as [|e logs IH]; intros msgs; simpl.
  - now rewrite app_nil_r.
  - now rewrite IH, app_assoc.
Qed.

Lemma format_unfold logs prompt_preamble :
  format_openai_chat_messages_from_transcript is_bot logs prompt_preamble
  = system_messages prompt_preamble ++ flat_map (appended is_bot) logs.
Proof. apply fold_appended. Qed.

Lemma appended_role e m :
  In m (appended is_bot e) ->
  dict_get m (str "role") <> Some (PStr (str "system")).
Proof.
  destruct e as [s t | a p | a r |]; simpl; intros H; try contradiction;
    destruct H as [<- | []]; simpl; try discriminate.
  destruct (is_bot s); discriminate.
Qed.

(** X14: one chat message per message or action of the transcript, other
    event logs giving none, after one system message when the preamble is
    a non-empty string; [None] and the empty string give no system
    message. *)
Theorem chat_messages_count logs prompt_preamble :
  length (format_openai_chat_messages_from_transcript
            is_bot logs prompt_preamble)
  = (match prompt_preamble with
     | Some (_ :: _) => 1
     | _ => 0
     end) + recognised logs.
Proof.
  rewrite format_unfold, length_app. f_equal.
  - destruct prompt_preamble as [[|c p]|]; reflexivity.
  - unfold recognised. induction logs as [|e logs IH]; [reflexivity|].
    simpl. rewrite length_app, IH. now destruct e.
Qed.

(** X15: a message with the role system can only be the first one, and
    then it carries the non-empty preamble. *)
Theorem system_message_only_first logs prompt_preamble i m :
  nth_error (format_openai_chat_messages_from_transcript
               is_bot logs prompt_preamble) i = Some m ->
  dict_get m (str "role") = Some (PStr (str "system")) ->
  i = 0 /\
  exists p, prompt_preamble = Some p /\ p <> [] /\
            m = [(str "role", PStr (str "system")); (str "content", PStr p)].
Proof.
  rewrite format_unfold. intros Hi Hrole.
  destruct (Nat.lt_ge_cases i (length (system_messages prompt_preamble)))
    as [Hlt | Hge].
  - rewrite nth_error_app1 in Hi by exact Hlt.
    destruct prompt_preamble as [[|c p]|]; simpl in *; try lia.
    destruct i as [|i]; [|simpl in Hlt; lia]. simpl in Hi.
    inversion Hi; subst. split; [reflexivity|].
    exists (c :: p). repeat split. discriminate.
  - rewrite nth_error_app2 in Hi by exact Hge.
    apply nth_error_In in Hi. apply in_flat_map in Hi.
    destruct Hi as (e & _ & Hm). now apply appended_role in Hm.
Qed.

(** X16: the speaker and the text of every message of the transcript can
    be read back, in order, from the chat messages. *)
Theorem messages_read_back logs prompt_preamble :
  read_back (format_openai_chat_messages_from_transcript
               is_bot logs prompt_preamble)
  = spoken is_bot logs.
Proof.
  rewrite format_unfold. unfold read_back, spoken.
  rewrite flat_map_app.
  assert (Hs : flat_map
                 (fun m =>
                    match dict_get m (str "role"),
                          dict_get m (str "content") with
                    | Some (PStr r), Some (PStr c) =>
                        if str_eqb r (str "assistant") then [(true, c)]
                        else if str_eqb r (str "user") then [(false, c)]
                        else []
                    | _, _ => []
                    end) (system_messages prompt_preamble) = []).
  { destruct prompt_preamble as [[|c p]|]; reflexivity. }
  rewrite Hs. simpl.
  induction logs as [|e logs IH]; [reflexivity|].
  simpl. rewrite flat_map_app, IH.
  destruct e as [s t | a p | a r |]; try reflexivity.
  simpl. now destruct (is_bot s).
Qed.

(** X17: event logs added to a transcript add their chat messages at the
    end and leave the earlier ones as they are. *)
Theorem chat_messages_append logs logs' prompt_preamble :
  format_openai_chat_messages_from_transcript
    is_bot (logs ++ logs') prompt_preamble
  = format_openai_chat_messages_from_transcript is_bot logs prompt_preamble
    ++ format_openai_chat_messages_from_transcript is_bot logs' None.
Proof.
  rewrite !format_unfold, flat_map_app, app_assoc. reflexivity.
Qed.

End ChatFacts.

Lemma system_message_only_first_witness :
  let msgs := format_openai_chat_messages_from_transcript
                (fun s : bool => s)
                [Message true (str "Hi"); OtherEvent;
                 ActionStart (str "dial") (str "{}")]
                (Some (str "Be kind")) in
  nth_error msgs 0
    = Some [(str "role", PStr (str "system"));
            (str "content", PStr (str "Be kind"))] /\
  (0 = 0 /\
   exists p, Some (str "Be kind") = Some p /\ p <> [] /\
             [(str "role", PStr (str "system"));
              (str "content", PStr (str "Be kind"))]
             = [(str "role", PStr (str "system")); (str "content", PStr p)]).
Proof.
  split; [reflexivity|].
  exact (system_message_only_first
           bool (fun s : bool => s)
           [Message true (str "Hi"); OtherEvent;
            ActionStart (str "dial") (str "{}")]
           (Some (str "Be kind")) 0 _ eq_refl eq_refl).
Defined.

(** ** The Pinecone store: [add_texts] *)

Section AddTexts.

Variable Embedding : Type.
Variable embedding_function : pystr -> Embedding.
Variable uuid4 : nat -> pystr.

Lemma store_update_length h : forall a d,
  length (store_update h a d) = length h.
Proof.
  induction h as [|x h IH]; intros [|a] d; simpl; auto.
Qed.

Lemma deref_update_same h : forall a d,
  a < length h -> deref (store_update h a d) a = d.
Proof.
  unfold deref. induction h as [|x h IH]; intros [|a] d Hlt; simpl in *;
    try lia; [reflexivity|].
  apply IH. lia.
Qed.

Lemma deref_update_other h : forall a a' d,
  a' <> a -> deref (store_update h a d) a' = deref h a'.
Proof.
  unfold deref. induction h as [|x h IH]; intros [|a] [|a'] d Hne; simpl;
    try reflexivity; try congruence.
  apply IH. congruence.
Qed.

Lemma skipn_nth (A : Type) (l : list A) : forall i x,
  nth_error l i = Some x -> skipn i l = x :: skipn (S i) l.
Proof.
  induction l as [|y l IH]; intros [|i] x H; simpl in *; try discriminate.
  - now inversion H.
  - now apply IH.
Qed.

Lemma given_items (A : Type) (o : option (list A)) :
  given o = true -> o = Some (items o) /\ items o <> [].
Proof.
  destruct o as [[|x l]|]; simpl; try discriminate.
  intros _. split; [reflexivity | discriminate].
Qed.

(** When the loop ends with [IndexError], and that it never ends with
    [KeyError]. *)
Lemma add_texts_loop_outcome metadatas ids : forall texts i h docs,
  i <= length ids ->
  (given metadatas = true -> i <= length (items metadatas)) ->
  (snd (add_texts_loop embedding_function metadatas ids i texts h docs)
   = IndexError <->
   (given metadatas = true /\ length (items metadatas) < i + length texts)
   \/ length ids < i + length texts) /\
  snd (add_texts_loop embedding_function metadatas ids i texts h docs)
  <> KeyError /\
  snd (add_texts_loop embedding_function metadatas ids i texts h docs)
  <> ValidationError.
Proof.
  intros texts. induction texts as [|text rest IH]; intros i h docs Hi Hm.
  - simpl. split; [|split; discriminate]. split; [discriminate|].
    intros [(Hg & H) | H]; [specialize (Hm Hg)|]; lia.
  - cbn [add_texts_loop length].
    destruct (given metadatas) eqn:Hg.
    + destruct metadatas as [[|m0 ms]|]; try discriminate.
      cbn [items] in *.
      destruct (nth_error (m0 :: ms) i) as [a|] eqn:Ea.
      * assert (Hlt : i < length (m0 :: ms))
          by (apply nth_error_Some; congruence).
        destruct (nth_error ids i) as [id|] eqn:Eid.
        -- assert (Hlt' : i < length ids)
             by (apply nth_error_Some; congruence).
           destruct (IH (S i)
                        (store_update h a
                           (dict_set (deref h a) text_key (PStr text)))
                        (docs ++ [mkDoc id (embedding_function text) a]))
             as (IH1 & IH2); [lia | intros _; lia |].
           split; [|exact IH2]. rewrite IH1. split.
           ++ intros [(_ & H) | H]; [left; split; [reflexivity | lia]
                                    | right; lia].
           ++ intros [(_ & H) | H]; [left; split; [reflexivity | lia]
                                    | right; lia].
        -- apply nth_error_None in Eid. cbn [snd].
           split; [|split; discriminate]. split; [intros _; right; lia
                                          | reflexivity].
      * apply nth_error_None in Ea. cbn [snd].
        split; [|split; discriminate]. split; [intros _; left; split; [reflexivity | lia]
                                       | reflexivity].
    + destruct (nth_error ids i) as [id|] eqn:Eid.
      * assert (Hlt' : i < length ids)
          by (apply nth_error_Some; congruence).
        destruct (IH (S i)
                     (store_update (h ++ [[]]) (length h)
                        (dict_set (deref (h ++ [[]]) (length h)) text_key
                                  (PStr text)))
                     (docs ++ [mkDoc id (embedding_function text) (length h)]))
          as (IH1 & IH2); [lia | discriminate |].
        split; [|exact IH2]. rewrite IH1. split.
        -- intros [(E & _) | H]; [discriminate | right; lia].
        -- intros [(E & _) | H]; [discriminate | right; lia].
      * apply nth_error_None in Eid. cbn [snd].
        split; [|split; discriminate]. split; [intros _; right; lia | reflexivity].
Qed.

Lemma store_update_last h d d' :
  store_update (h ++ [d]) (length h) d' = h ++ [d'].
Proof. induction h as [|x h IH]; simpl; [reflexivity | now rewrite IH]. Qed.

Lemma deref_last h d : deref (h ++ [d]) (length h) = d.
Proof.
  unfold deref. rewrite app_nth2 by lia. now rewrite Nat.sub_diag.
Qed.

(** The docs a successful loop appends: for each text its id, its
    embedding and its metadata object, and how the store grows. *)
Lemma add_texts_loop_docs metadatas ids : forall texts i h docs h' docs',
  add_texts_loop embedding_function metadatas ids i texts h docs
  = (h', Returned docs') ->
  docs' = docs ++
          map (fun x => mkDoc (fst x) (embedding_function (snd (snd x)))
                              (fst (snd x)))
              (combine (skipn i ids)
                 (combine (if given metadatas
                           then skipn i (items metadatas)
                           else seq (length h) (length texts)) texts)) /\
  length h' = length h + (if given metadatas then 0 else length texts).
Proof.
  intros texts. induction texts as [|text rest IH]; intros i h docs h' docs' E.
  - simpl in E. inversion E; subst.
    rewrite combine_nil, combine_nil. simpl. rewrite app_nil_r.
    split; [reflexivity|]. destruct (given metadatas); lia.
  - cbn [add_texts_loop] in E. destruct (given metadatas) eqn:Hg.
    + destruct metadatas as [[|m0 ms]|]; try discriminate.
      cbn [items] in *.
      destruct (nth_error (m0 :: ms) i) as [a|] eqn:Ea; [|discriminate].
      destruct (nth_error ids i) as [id|] eqn:Eid; [|discriminate].
      apply IH in E. destruct E as (-> & El).
      rewrite store_update_length in El. split; [|exact El].
      rewrite (skipn_nth _ _ _ _ Ea), (skipn_nth _ _ _ _ Eid).
      cbn [combine map fst snd]. now rewrite <- app_assoc.
    + destruct (nth_error ids i) as [id|] eqn:Eid; [|discriminate].
      apply IH in E. destruct E as (-> & El).
      rewrite store_update_length, length_app in El. cbn [length] in *.
      split; [|lia].
      rewrite (skipn_nth _ _ _ _ Eid).
      rewrite store_update_length, length_app. cbn [length seq].
      replace (length h + 1) with (S (length h)) by lia.
      cbn [combine map fst snd]. now rewrite <- app_assoc.
Qed.

(** Without metadata every doc gets a new dictionary of its own, added at
    the end of the store. *)
Lemma add_texts_loop_fresh metadatas ids :
  given metadatas = false ->
  forall texts i h docs h' docs',
  add_texts_loop embedding_function metadatas ids i texts h docs
  = (h', Returned docs') ->
  h' = h ++ map (fun t => [(text_key, PStr t)]) texts.
Proof.
  intros Hg texts. induction texts as [|text rest IH];
    intros i h docs h' docs' E.
  - simpl in E. inversion E; subst. simpl. now rewrite app_nil_r.
  - cbn [add_texts_loop] in E. rewrite Hg in E.
    destruct (nth_error ids i) as [id|] eqn:Eid; [|discriminate].
    rewrite deref_last, store_update_last in E. cbn [dict_set] in E.
    apply IH in E. rewrite E, <- app_assoc. reflexivity.
Qed.

Lemma last_text_used ms : forall texts a t,
  last_text ms texts a = Some t -> In a (firstn (length texts) ms).
Proof.
  induction ms as [|m ms IH]; intros [|t0 texts] a t; simpl;
    try discriminate.
  destruct (last_text ms texts a) as [t'|] eqn:E.
  - intros _. right. now apply (IH texts a t').
  - destruct (Nat.eqb_spec m a); [now left | discriminate].
Qed.

(** With metadata, the dictionaries handed in are changed in place: each
    gets the text it is last used for, and no other is touched. *)
Lemma add_texts_loop_shared m0 ms ids : forall texts i h docs h' docs',
  add_texts_loop embedding_function (Some (m0 :: ms)) ids i texts h docs
  = (h', Returned docs') ->
  Forall (fun a => a < length h)
         (firstn (length texts) (skipn i (m0 :: ms))) ->
  forall a,
    deref h' a =
    match last_text (skipn i (m0 :: ms)) texts a with
    | Some t => dict_set (deref h a) text_key (PStr t)
    | None => deref h a
    end.
Proof.
  intros texts. induction texts as [|text rest IH];
    intros i h docs h' docs' E Hv a.
  - simpl in E. inversion E; subst. now destruct (skipn i (m0 :: ms)).
  - cbn [add_texts_loop given] in E.
    destruct (nth_error (m0 :: ms) i) as [m|] eqn:Ea; [|discriminate].
    destruct (nth_error ids i) as [id|] eqn:Eid; [|discriminate].
    rewrite (skipn_nth _ _ _ _ Ea) in Hv |- *. cbn [length firstn] in Hv.
    inversion Hv as [|? ? Hm Hv']; subst.
    cbn [last_text].
    rewrite (IH _ _ _ _ _ E); [|now rewrite store_update_length].
    destruct (last_text (skipn (S i) (m0 :: ms)) rest a) as [t'|] eqn:El.
    + destruct (Nat.eq_dec a m) as [-> | Hne].
      * rewrite deref_update_same by exact Hm. apply dict_set_set.
      * now rewrite deref_update_other.
    + destruct (Nat.eqb_spec m a) as [<- | Hne].
      * now rewrite deref_update_same.
      * rewrite deref_update_other; [reflexivity | congruence].
Qed.

End AddTexts.

Section AddTextsProperties.

Variable Embedding : Type.
Variable embedding_function : pystr -> Embedding.
Variable uuid4 : nat -> pystr.

Lemma add_texts_unfold h texts metadatas ids :
  add_texts embedding_function uuid4 h texts metadatas ids =
  let ids' := if given ids then items ids
              else map uuid4 (seq 0 (length (first_pass texts))) in
  match add_texts_loop embedding_function metadatas ids' 0
                       (enumerated texts ids) h [] with
  | (h', Returned docs) => (h', Returned (docs, ids'))
  | (h', IndexError) => (h', IndexError)
  | (h', KeyError) => (h', KeyError)
  | (h', ValidationError) => (h', ValidationError)
  end.
Proof. unfold add_texts, enumerated. now destruct ids as [[|x l]|]. Qed.

Lemma add_texts_returned h texts metadatas ids h' docs r :
  add_texts embedding_function uuid4 h texts metadatas ids
  = (h', Returned (docs, r)) ->
  r = (if given ids then items ids
       else map uuid4 (seq 0 (length (first_pass texts)))) /\
  add_texts_loop embedding_function metadatas r 0 (enumerated texts ids) h []
  = (h', Returned docs).
Proof.
  rewrite add_texts_unfold. cbv zeta.
  destruct (add_texts_loop _ _ _ _ _ _ _) as [h1 [docs1| | |]] eqn:E;
    intros H; inversion H; subst. auto.
Qed.

Lemma fresh_ids_length (l : list pystr) :
  length (map uuid4 (seq 0 (length l))) = length l.
Proof. now rewrite length_map, length_seq. Qed.

Lemma second_pass_length texts :
  length (second_pass texts) <= length (first_pass texts).
Proof. destruct texts; simpl; lia. Qed.

Lemma add_texts_index_error_iff h texts metadatas ids :
  snd (add_texts embedding_function uuid4 h texts metadatas ids)
  = IndexError <->
  (given metadatas = true /\
   length (items metadatas) < length (enumerated texts ids)) \/
  (given ids = true /\ length (items ids) < length (enumerated texts ids)).
Proof.
  rewrite add_texts_unfold. cbv zeta.
  pose proof (add_texts_loop_outcome
                Embedding embedding_function metadatas
                (if given ids then items ids
                 else map uuid4 (seq 0 (length (first_pass texts))))
                (enumerated texts ids) 0 h []
                (Nat.le_0_l _) (fun _ => Nat.le_0_l _))
    as (Hiff & Hk & Hv).
  destruct (add_texts_loop _ _ _ _ _ _ _) as [h1 [docs1| | |]] eqn:E;
    cbn [snd] in *.
  - split; [discriminate|]. intros H.
    assert (Hc : @Returned (list (doc Embedding)) docs1 = IndexError);
      [|discriminate].
    apply Hiff. destruct H as [H | (Hg & H)]; [now left | right].
    now rewrite Hg.
  - split; [|reflexivity]. intros _.
    destruct (proj1 Hiff eq_refl) as [H | H]; [now left | right].
    destruct (given ids) eqn:Hg; [split; [reflexivity | exact H]|].
    rewrite fresh_ids_length in H. simpl in H.
    unfold enumerated in H. rewrite Hg in H.
    pose proof (second_pass_length texts). lia.
  - now contradiction Hk.
  - now contradiction Hv.
Qed.

(** X18: [add_texts] ends with [IndexError] exactly when a non-empty
    [metadatas] or a non-empty [ids] is shorter than the texts the loop
    goes through; an empty list counts as not given, and an iterator that
    was used up for the identifiers gives the loop nothing. *)
Theorem add_texts_index_error h texts metadatas ids :
  snd (add_texts embedding_function uuid4 h texts metadatas ids)
  = IndexError <->
  (given metadatas = true /\
   length (items metadatas) < length (enumerated texts ids)) \/
  (given ids = true /\ length (items ids) < length (enumerated texts ids)).
Proof. apply add_texts_index_error_iff. Qed.


Lemma fresh_vectors (l : list pystr) : forall (r : list pystr) (h : store),
  map (fun x => (fst x, embedding_function (snd (snd x)),
                 deref (h ++ map (fun t => [(text_key, PStr t)]) l)
                       (fst (snd x))))
      (combine r (combine (seq (length h) (length l)) l))
  = map (fun x => (fst x, embedding_function (snd x),
                   [(text_key, PStr (snd x))]))
        (combine r l).
Proof.
  induction l as [|t rest IH]; intros r h.
  - simpl. now rewrite !combine_nil.
  - destruct r as [|id r]; [reflexivity|].
    cbn [length seq combine map fst snd]. f_equal.
    + f_equal. unfold deref. rewrite app_nth2 by lia.
      now rewrite Nat.sub_diag.
    + specialize (IH r (h ++ [[(text_key, PStr t)]])).
      rewrite length_app, <- app_assoc in IH. cbn [length app] in IH.
      replace (length h + 1) with (S (length h)) in IH by lia.
      exact IH.
Qed.

(** X20: without metadata ([None] or an empty list) every text the loop
    goes through gets a new dictionary of its own holding only the text,
    the dictionaries that existed before are left as they are, and each
    posted vector carries its text, and nothing else, as metadata. *)
Theorem add_texts_fresh_metadata h texts metadatas ids h' docs r :
  given metadatas = false ->
  add_texts embedding_function uuid4 h texts metadatas ids
  = (h', Returned (docs, r)) ->
  h' = h ++ map (fun t => [(text_key, PStr t)]) (enumerated texts ids) /\
  vectors h' docs
  = map (fun x => (fst x, embedding_function (snd x),
                   [(text_key, PStr (snd x))]))
        (combine r (enumerated texts ids)).
Proof.
  intros Hg H.
  destruct (add_texts_returned _ _ _ _ _ _ _ H) as (_ & El).
  pose proof (add_texts_loop_fresh
                Embedding embedding_function metadatas r Hg
                _ _ _ _ _ _ El) as Eh.
  apply add_texts_loop_docs in El. destruct El as (Ed & _).
  rewrite Hg in Ed. cbn [app skipn] in Ed.
  split; [exact Eh|]. unfold vectors. rewrite Ed, map_map. cbn [doc_id
    doc_values doc_metadata]. rewrite Eh. apply fresh_vectors.
Qed.

(** X21: with metadata, [add_texts] writes into the caller's dictionaries:
    each dictionary used gets the text it is last used for under the key
    text, so a dictionary passed for several texts ends with the last of
    them, and no other dictionary changes. *)
Theorem add_texts_changes_metadata_in_place
    h texts m0 ms ids h' docs r :
  add_texts embedding_function uuid4 h texts (Some (m0 :: ms)) ids
  = (h', Returned (docs, r)) ->
  Forall (fun a => a < length h)
         (firstn (length (enumerated texts ids)) (m0 :: ms)) ->
  length h' = length h /\
  forall a,
    deref h' a =
    match last_text (m0 :: ms) (enumerated texts ids) a with
    | Some t => dict_set (deref h a) text_key (PStr t)
    | None => deref h a
    end.
Proof.
  intros H Hv.
  destruct (add_texts_returned _ _ _ _ _ _ _ H) as (_ & El).
  split.
  - apply add_texts_loop_docs in El. destruct El as (_ & El).
    cbn [given] in El. lia.
  - intros a.
    exact (add_texts_loop_shared Embedding embedding_function m0 ms r
                                 _ _ _ _ _ _ El Hv a).
Qed.

Lemma last_text_nodup ms : forall (l : list pystr) a t,
  NoDup (firstn (length l) ms) ->
  In (a, t) (combine ms l) ->
  last_text ms l a = Some t.
Proof.
  induction ms as [|m ms IH]; intros [|t0 l] a t Hnd Hin;
    try (simpl in Hin; contradiction).
  cbn [length firstn] in Hnd. inversion Hnd as [|? ? Hnin Hnd']; subst.
  cbn [combine] in Hin. cbn [last_text]. destruct Hin as [E | Hin].
  - inversion E; subst.
    destruct (last_text ms l a) as [t'|] eqn:El.
    + apply last_text_used in El. contradiction.
    + now rewrite Nat.eqb_refl.
  - now rewrite (IH l a t Hnd' Hin).
Qed.

(** X22: when the metadata dictionaries are distinct objects, each posted
    vector carries its own dictionary with the text put under the key
    text. *)
Theorem add_texts_vectors_distinct h texts m0 ms ids h' docs r :
  add_texts embedding_function uuid4 h texts (Some (m0 :: ms)) ids
  = (h', Returned (docs, r)) ->
  Forall (fun a => a < length h)
         (firstn (length (enumerated texts ids)) (m0 :: ms)) ->
  NoDup (firstn (length (enumerated texts ids)) (m0 :: ms)) ->
  vectors h' docs
  = map (fun x => (fst x, embedding_function (snd (snd x)),
                   dict_set (deref h (fst (snd x))) text_key
                            (PStr (snd (snd x)))))
        (combine r (combine (m0 :: ms) (enumerated texts ids))).
Proof.
  intros H Hv Hnd.
  destruct (add_texts_returned _ _ _ _ _ _ _ H) as (_ & El).
  pose proof (add_texts_loop_shared Embedding embedding_function m0 ms r
                                    _ _ _ _ _ _ El Hv) as Hs.
  apply add_texts_loop_docs in El. destruct El as (Ed & _).
  cbn [given items app skipn] in Ed, Hs.
  unfold vectors. rewrite Ed, map_map. cbn [doc_id doc_values doc_metadata].
  apply map_ext_in. intros [id [a t]] Hin. cbn [fst snd].
  apply in_combine_r in Hin.
  now rewrite Hs, (last_text_nodup _ _ _ _ Hnd Hin).
Qed.

End AddTextsProperties.


Lemma add_texts_fresh_metadata_witness :
  given (Some (@nil nat)) = false /\
  add_texts (fun t : pystr => t) (fun _ => str "u")
            [[(str "k", PNone)]] (Sequence [str "a"]) (Some [])
            (Some [str "i"])
  = ([[(str "k", PNone)]; [(text_key, PStr (str "a"))]],
     Returned ([mkDoc (str "i") (str "a") 1], [str "i"])) /\
  vectors [[(str "k", PNone)]; [(text_key, PStr (str "a"))]]
          [mkDoc (str "i") (str "a") 1]
  = [(str "i", str "a", [(text_key, PStr (str "a"))])].
Proof.
  assert (H : add_texts (fun t : pystr => t) (fun _ => str "u")
                [[(str "k", PNone)]] (Sequence [str "a"]) (Some [])
                (Some [str "i"])
              = ([[(str "k", PNone)]; [(text_key, PStr (str "a"))]],
                 Returned ([mkDoc (str "i") (str "a") 1], [str "i"])))
    by reflexivity.
  split; [reflexivity|]. split; [exact H|].
  exact (proj2 (add_texts_fresh_metadata
                  pystr (fun t => t) (fun _ => str "u")
                  _ _ (Some []) _ _ _ _ eq_refl H)).
Defined.

Lemma add_texts_changes_metadata_in_place_witness :
  add_texts (fun t : pystr => t) (fun _ => str "u")
            [[]] (Sequence [str "a"; str "b"]) (Some [0; 0]) None
  = ([[(text_key, PStr (str "b"))]],
     Returned ([mkDoc (str "u") (str "a") 0; mkDoc (str "u") (str "b") 0],
               [str "u"; str "u"])) /\
  Forall (fun a => a < length [@nil (pystr * pyval)])
         (firstn (length (enumerated (Sequence [str "a"; str "b"]) None))
                 [0; 0]) /\
  deref [[(text_key, PStr (str "b"))]] 0
  = dict_set (deref [[]] 0) text_key (PStr (str "b")).
Proof.
  assert (H : add_texts (fun t : pystr => t) (fun _ => str "u")
                [[]] (Sequence [str "a"; str "b"]) (Some [0; 0]) None
              = ([[(text_key, PStr (str "b"))]],
                 Returned ([mkDoc (str "u") (str "a") 0;
                            mkDoc (str "u") (str "b") 0],
                           [str "u"; str "u"])))
    by reflexivity.
  assert (Hv : Forall (fun a => a < length [@nil (pystr * pyval)])
                 (firstn (length (enumerated (Sequence [str "a"; str "b"])
                                             None)) [0; 0]))
    by (repeat constructor).
  split; [exact H|]. split; [exact Hv|].
  exact (proj2 (add_texts_changes_metadata_in_place
                  pystr (fun t => t) (fun _ => str "u")
                  _ _ _ _ _ _ _ _ H Hv) 0).
Defined.

Lemma add_texts_vectors_distinct_witness :
  add_texts (fun t : pystr => t) (fun _ => str "u")
            [[(str "k", PNone)]; []] (Sequence [str "a"; str "b"])
            (Some [0; 1]) (Some [str "i"; str "j"])
  = ([[(str "k", PNone); (text_key, PStr (str "a"))];
      [(text_key, PStr (str "b"))]],
     Returned ([mkDoc (str "i") (str "a") 0; mkDoc (str "j") (str "b") 1],
               [str "i"; str "j"])) /\
  Forall (fun a => a < 2) (firstn 2 [0; 1]) /\
  NoDup (firstn 2 [0; 1]) /\
  vectors [[(str "k", PNone); (text_key, PStr (str "a"))];
           [(text_key, PStr (str "b"))]]
          [mkDoc (str "i") (str "a") 0; mkDoc (str "j") (str "b") 1]
  = [(str "i", str "a", [(str "k", PNone); (text_key, PStr (str "a"))]);
     (str "j", str "b", [(text_key, PStr (str "b"))])].
Proof.
  assert (H : add_texts (fun t : pystr => t) (fun _ => str "u")
                [[(str "k", PNone)]; []] (Sequence [str "a"; str "b"])
                (Some [0; 1]) (Some [str "i"; str "j"])
              = ([[(str "k", PNone); (text_key, PStr (str "a"))];
                  [(text_key, PStr (str "b"))]],
                 Returned ([mkDoc (str "i") (str "a") 0;
                            mkDoc (str "j") (str "b") 1],
                           [str "i"; str "j"])))
    by reflexivity.
  assert (Hv : Forall (fun a => a < 2) (firstn 2 [0; 1]))
    by (repeat constructor).
  assert (Hn : NoDup (firstn 2 [0; 1])).
  { simpl. constructor; [simpl; intros [E | []]; discriminate|].
    constructor; [intros []|constructor]. }
  split; [exact H|]. split; [exact Hv|]. split; [exact Hn|].
  exact (add_texts_vectors_distinct
           pystr (fun t => t) (fun _ => str "u")
           _ _ _ _ _ _ _ _ H Hv Hn).
Defined.

(** ** The Pinecone store: [similarity_search_with_score] *)

Section Search.

Variable Score : Type.

Lemma search_acc (matches : list (result_match Score)) : forall docs,
  similarity_search_with_score matches docs =
  match similarity_search_with_score matches [] with
  | Returned l => Returned (docs ++ l)
  | IndexError => IndexError
  | KeyError => KeyError
  | ValidationError => ValidationError
  end.
Proof.
  induction matches as [|res rest IH]; intros docs; simpl.
  - now rewrite app_nil_r.
  - destruct (match_metadata res) as [md|]; [|reflexivity].
    destruct (dict_get md text_key) as [text|]; [|apply IH].
    destruct (match_score res) as [score|]; [|reflexivity].
    destruct text as [|s|d]; try reflexivity.
    rewrite IH. rewrite (IH [_]).
    destruct (similarity_search_with_score rest []); try reflexivity.
    now rewrite <- app_assoc.
Qed.

Lemma search_key_missing (res : result_match Score) rest docs :
  key_missing res ->
  similarity_search_with_score (res :: rest) docs = KeyError.
Proof.
  intros [E | (md & Em & Hc & Es)]; simpl.
  - now rewrite E.
  - rewrite Em. unfold dict_contains in Hc.
    destruct (dict_get md text_key); [|discriminate]. now rewrite Es.
Qed.

Lemma search_text_not_string (res : result_match Score) rest docs :
  text_not_string res ->
  similarity_search_with_score (res :: rest) docs = ValidationError.
Proof.
  intros (md & v & score & Em & Ev & Es & Hv). simpl.
  rewrite Em, Ev, Es. destruct v as [|s|d]; try reflexivity.
  now contradiction (Hv s).
Qed.

Lemma search_handled (res : result_match Score) rest docs :
  handled res ->
  exists docs',
    similarity_search_with_score (res :: rest) docs
    = similarity_search_with_score rest docs'.
Proof.
  intros (Hk & Hv). simpl.
  destruct (match_metadata res) as [md|] eqn:Em;
    [|exfalso; apply Hk; now left].
  destruct (dict_get md text_key) as [v|] eqn:Ev; [|now exists docs].
  destruct (match_score res) as [score|] eqn:Es.
  - destruct v as [|s|d]; [| eauto |];
      exfalso; apply Hv; exists md; eexists; exists score;
      repeat split; try eassumption; discriminate.
  - exfalso. apply Hk. right. exists md. unfold dict_contains.
    now rewrite Ev.
Qed.

Lemma match_cases (res : result_match Score) :
  key_missing res \/ text_not_string res \/ handled res.
Proof.
  destruct (match_metadata res) as [md|] eqn:Em; [|left; now left].
  destruct (dict_get md text_key) as [v|] eqn:Ev.
  - destruct (match_score res) as [score|] eqn:Es.
    + destruct v as [|s|d].
      * right. left. exists md, PNone, score. repeat split; try assumption.
        discriminate.
      * right. right. split.
        -- intros [E | (md' & Em' & _ & Es')]; congruence.
        -- intros (md' & v & score' & Em' & Ev' & _ & Hv).
           rewrite Em in Em'. inversion Em'; subst.
           rewrite Ev in Ev'. inversion Ev'; subst. now apply (Hv s).
      * right. left. exists md, (PDict d), score.
        repeat split; try assumption. discriminate.
    + left. right. exists md. unfold dict_contains. now rewrite Ev.
  - right. right. split.
    + intros [E | (md' & Em' & Hc & _)]; [congruence|].
      rewrite Em in Em'. inversion Em'; subst.
      unfold dict_contains in Hc. now rewrite Ev in Hc.
    + intros (md' & v & score' & Em' & Ev' & _).
      rewrite Em in Em'. inversion Em'; subst. congruence.
Qed.

(** The first match that is not handled decides how the loop ends. *)
Lemma search_outcome (matches : list (result_match Score)) : forall docs,
  match similarity_search_with_score matches docs with
  | Returned _ => Forall handled matches
  | KeyError =>
      exists pre res post,
        matches = pre ++ res :: post /\ Forall handled pre /\ key_missing res
  | ValidationError =>
      exists pre res post,
        matches = pre ++ res :: post /\ Forall handled pre /\
        text_not_string res
  | IndexError => False
  end.
Proof.
  induction matches as [|res rest IH]; intros docs.
  - simpl. constructor.
  - destruct (match_cases res) as [Hk | [Hv | Hh]].
    + rewrite (search_key_missing res rest docs Hk).
      exists [], res, rest. repeat split; [constructor | exact Hk].
    + rewrite (search_text_not_string res rest docs Hv).
      exists [], res, rest. repeat split; [constructor | exact Hv].
    + destruct (search_handled res rest docs Hh) as (docs' & ->).
      specialize (IH docs').
      destruct (similarity_search_with_score rest docs').
      * now constructor.
      * exact IH.
      * destruct IH as (pre & r & post & -> & Hpre & Hr).
        exists (res :: pre), r, post. repeat split; [now constructor | exact Hr].
      * destruct IH as (pre & r & post & -> & Hpre & Hr).
        exists (res :: pre), r, post. repeat split; [now constructor | exact Hr].
Qed.

Lemma search_past_handled (pre : list (result_match Score)) :
  forall rest docs,
  Forall handled pre ->
  exists docs',
    similarity_search_with_score (pre ++ rest) docs
    = similarity_search_with_score rest docs'.
Proof.
  induction pre as [|p pre IH]; intros rest docs Hpre.
  - now exists docs.
  - inversion Hpre as [|? ? Hp Hpre']; subst.
    destruct (search_handled p (pre ++ rest) docs Hp) as (docs1 & E).
    destruct (IH rest docs1 Hpre') as (docs2 & E2).
    exists docs2. cbn [app]. now rewrite E, E2.
Qed.


(** X24: what the search returns never has the key text in its metadata:
    the text has been taken out and made the page content; and there are
    at most as many results as matches. *)
Theorem search_takes_text_out (matches : list (result_match Score)) docs :
  Forall (fun res => forall md, match_metadata res = Some md -> dict_ok md)
         matches ->
  similarity_search_with_score matches [] = Returned docs ->
  Forall (fun d => dict_contains (metadata (fst d)) text_key = false) docs /\
  length docs <= length matches.
Proof.
  revert docs. induction matches as [|res rest IH]; intros docs Hok H.
  - simpl in H. inversion H; subst. split; [constructor | simpl; lia].
  - inversion Hok as [|? ? Hres Hrest]; subst. simpl in H.
    destruct (match_metadata res) as [md|] eqn:Em; [|discriminate].
    destruct (dict_get md text_key) as [text|] eqn:Et.
    + destruct (match_score res) as [score|]; [|discriminate].
      destruct text as [|s|d]; try discriminate.
      rewrite search_acc in H.
      destruct (similarity_search_with_score rest []) as [l| | |] eqn:Er;
        try discriminate.
      inversion H; subst. destruct (IH l Hrest eq_refl) as (IH1 & IH2).
      split; [|simpl; lia]. constructor; [|exact IH1].
      unfold dict_contains. cbn [fst metadata].
      now rewrite (dict_get_pop_same md text_key (Hres md eq_refl)).
    + destruct (IH docs Hrest H) as (IH1 & IH2). split; [exact IH1|].
      simpl. lia.
Qed.

(** X25: what [add_texts] stores comes back from the search.  A match
    whose metadata is a dictionary with the text put under the key text,
    as [add_texts] leaves it, gives the text as page content and the
    dictionary without that key as metadata, in the order of the
    matches. *)
Theorem stored_texts_come_back
    (stored : list (pydict * pystr * Score)) :
  similarity_search_with_score
    (map (fun x => mkMatch
                     (Some (dict_set (fst (fst x)) text_key
                                     (PStr (snd (fst x)))))
                     (Some (snd x))) stored) []
  = Returned
      (map (fun x => (mkDocument (PStr (snd (fst x)))
                                 (dict_pop (fst (fst x)) text_key),
                      snd x)) stored).
Proof.
  induction stored as [|[[md t] sc] rest IH]; [reflexivity|].
  cbn [map similarity_search_with_score match_metadata match_score fst snd].
  rewrite dict_get_set_same, search_acc, IH, dict_pop_set. reflexivity.
Qed.

End Search.

Lemma search_takes_text_out_witness :
  Forall (fun res : result_match nat =>
            forall md, match_metadata res = Some md -> dict_ok md)
         [mkMatch (Some [(str "k", PNone); (text_key, PStr (str "a"))])
                  (Some 7);
          mkMatch (Some [(str "k", PNone)]) None] /\
  similarity_search_with_score
    [mkMatch (Some [(str "k", PNone); (text_key, PStr (str "a"))]) (Some 7);
     mkMatch (Some [(str "k", PNone)]) None] []
  = Returned [(mkDocument (PStr (str "a")) [(str "k", PNone)], 7)] /\
  Forall (fun d : Document * nat =>
            dict_contains (metadata (fst d)) text_key = false)
         [(mkDocument (PStr (str "a")) [(str "k", PNone)], 7)].
Proof.
  assert (Hok : Forall (fun res : result_match nat =>
                   forall md, match_metadata res = Some md -> dict_ok md)
                 [mkMatch (Some [(str "k", PNone);
                                 (text_key, PStr (str "a"))]) (Some 7);
                  mkMatch (Some [(str "k", PNone)]) None]).
  { constructor; [|constructor; [|constructor]];
      intros md E; inversion E; subst; unfold dict_ok; simpl.
    - constructor; [simpl; intros [H | []]; discriminate|].
      constructor; [intros []|constructor].
    - constructor; [intros []|constructor]. }
  assert (H : similarity_search_with_score
                [mkMatch (Some [(str "k", PNone);
                                (text_key, PStr (str "a"))]) (Some 7);
                 mkMatch (Some [(str "k", PNone)]) None] []
              = Returned [(mkDocument (PStr (str "a")) [(str "k", PNone)],
                           7)]) by reflexivity.
  split; [exact Hok|]. split; [exact H|].
  exact (proj1 (search_takes_text_out nat _ _ Hok H)).
Defined.

(** The order of the two checks: a text that is not a string gives a
    validation error when the match has a score, and [KeyError] when it
    has none. *)
Example search_none_text :
  similarity_search_with_score
    [mkMatch (Some [(text_key, PNone)]) (Some 1); mkMatch None (Some 2)] []
  = ValidationError /\
  similarity_search_with_score
    [mkMatch (Some [(text_key, PNone)]) (@None nat)] []
  = KeyError.
Proof. split; reflexivity. Qed.

(** With [ids] not given, an iterator is used up for the identifiers and
    the loop finds nothing, where a sequence of the same texts runs into
    the short [metadatas]. *)
Example add_texts_iterator :
  add_texts (fun t : pystr => t) (fun _ => str "u") [[]]
            (Iterator [str "a"; str "b"]) (Some [0]) None
  = ([[]], Returned ([], [str "u"; str "u"])) /\
  snd (add_texts (fun t : pystr => t) (fun _ => str "u") [[]]
                 (Sequence [str "a"; str "b"]) (Some [0]) None)
  = IndexError.
Proof. split; reflexivity. Qed.
